(** * Co-browsing chat backend: action extraction and reconciliation

    A shallow embedding of the two versions of [processMessage] found in the
    repository (the newer one with the deterministic fill-intent extractor
    [parseFillFromUser], and the older [services/geminiService.js]), together
    with the part of the JavaScript runtime they rely on: strings as sequences
    of UTF-16 code units, a backtracking regular-expression matcher, [trim],
    [slice], insertion-ordered objects and the string coercion of JSON values. *)

From Stdlib Require Import String Ascii NArith Bool Arith Lia List.
Import ListNotations.

Set Implicit Arguments.
Set Warnings "-register-all".

(** ** JavaScript strings *)

(** A JavaScript string is a sequence of UTF-16 code units. *)
Definition jsstring := list N.

Definition lit (s : string) : jsstring :=
  List.map N_of_ascii (list_ascii_of_string s).
Arguments lit s%_string.

(** [s] between double quotes. *)
Definition quoted (s : string) : jsstring := (34 :: lit s ++ [34])%N.
Arguments quoted s%_string.

Definition jsstring_eqb (a b : jsstring) : bool :=
  if list_eq_dec N.eq_dec a b then true else false.

Definition between (lo hi x : N) : bool := (N.leb lo x && N.leb x hi)%bool.

Definition one_of (cs : list N) (x : N) : bool := existsb (N.eqb x) cs.

(** WhiteSpace and LineTerminator of ECMAScript: what [\s] matches and what
    [String.prototype.trim] removes. *)
Definition is_space (x : N) : bool :=
  (one_of [9; 10; 11; 12; 13; 32; 160; 5760; 8232; 8233; 8239; 8287; 12288; 65279] x
   || between 8192 8202 x)%N%bool.

(** LineTerminator: what [.] does not match. *)
Definition is_line_terminator (x : N) : bool := one_of [10; 13; 8232; 8233]%N x.

Definition is_dot (x : N) : bool := negb (is_line_terminator x).

Definition is_upper (x : N) : bool := between 65 90 x.
Definition is_lower (x : N) : bool := between 97 122 x.
Definition is_digit (x : N) : bool := between 48 57 x.

(** [\w] without the unicode flag: [A-Za-z0-9_]. *)
Definition is_word (x : N) : bool :=
  (is_upper x || is_lower x || is_digit x || N.eqb x 95)%bool.

(** [[a-zA-Z0-9_-]]. *)
Definition is_idchar (x : N) : bool := (is_word x || N.eqb x 45)%bool.

(** Lower-casing of one code unit.  Only A-Z are mapped.  The full Unicode
    mapping differs on code units above 127, but no such unit is mapped to one
    of the letters of the allow-listed words, and every lower-cased string of
    the program is either made of [[a-zA-Z0-9_-]] or only compared with the
    allow-list, so the difference is not observable in a result. *)
Definition lower1 (x : N) : N := if is_upper x then (x + 32)%N else x.

Definition toLowerCase (s : jsstring) : jsstring := List.map lower1 s.

(** [String.prototype.trim]. *)
Fixpoint trimStart (s : jsstring) : jsstring :=
  match s with
  | x :: s' => if is_space x then trimStart s' else s
  | [] => []
  end.

Definition trimEnd (s : jsstring) : jsstring := rev (trimStart (rev s)).

Definition trim (s : jsstring) : jsstring := trimEnd (trimStart s).

(** [s.slice(start, end)] for indices within [0, s.length]. *)
Definition slice (s : jsstring) (start stop : nat) : jsstring :=
  firstn (stop - start) (skipn start s).

(** [Array.prototype.join]. *)
Fixpoint join (sep : jsstring) (l : list jsstring) : jsstring :=
  match l with
  | [] => []
  | [x] => x
  | x :: l' => x ++ sep ++ join sep l'
  end.

(** [String.prototype.includes]. *)
Fixpoint starts_with (p s : jsstring) : bool :=
  match p, s with
  | [], _ => true
  | x :: p', y :: s' => (N.eqb x y && starts_with p' s')%bool
  | _ :: _, [] => false
  end.

Fixpoint includes (s p : jsstring) : bool :=
  (starts_with p s ||
   match s with
   | [] => false
   | _ :: s' => includes s' p
   end)%bool.

(** ** Regular expressions

    The fragment of ECMAScript patterns used by the program: character
    classes, sequence, ordered alternation, greedy and lazy repetition of a
    class, [\b], [^], [$] and numbered capture groups.  Matching is the
    backtracking search of the language definition, written with a
    continuation for what follows. *)

Inductive regex : Type :=
| Eps
| Chr (p : N -> bool)
| Seq (r1 r2 : regex)
| Alt (r1 r2 : regex)
| Star (greedy : bool) (p : N -> bool)
| WordB
| Bol
| Eol
| Group (n : nat) (r : regex).

Definition captures := list (nat * jsstring).

(** The input around the current position: what was read (latest first), what
    is left, and the groups captured so far. *)
Record mstate : Type := MState {
  before : list N;
  rest : jsstring;
  caps : captures
}.

Definition get_cap (n : nat) (c : captures) : option jsstring :=
  match find (fun e => Nat.eqb (fst e) n) c with
  | Some e => Some (snd e)
  | None => None
  end.

Definition consumed (s0 s1 : mstate) : jsstring :=
  firstn (length (rest s0) - length (rest s1)) (rest s0).

Definition word_at (l : list N) : bool :=
  match l with
  | x :: _ => is_word x
  | [] => false
  end.

Section Matcher.
Variable A : Type.

Fixpoint star_greedy (p : N -> bool) (k : mstate -> option A)
         (b : list N) (s : jsstring) (c : captures) : option A :=
  match s with
  | x :: s' =>
      if p x then
        match star_greedy p k (x :: b) s' c with
        | Some a => Some a
        | None => k (MState b s c)
        end
      else k (MState b s c)
  | [] => k (MState b s c)
  end.

Fixpoint star_lazy (p : N -> bool) (k : mstate -> option A)
         (b : list N) (s : jsstring) (c : captures) : option A :=
  match k (MState b s c) with
  | Some a => Some a
  | None =>
      match s with
      | x :: s' => if p x then star_lazy p k (x :: b) s' c else None
      | [] => None
      end
  end.

Fixpoint rmatch (r : regex) (st : mstate) (k : mstate -> option A) : option A :=
  match r with
  | Eps => k st
  | Chr p =>
      match rest st with
      | x :: s' => if p x then k (MState (x :: before st) s' (caps st)) else None
      | [] => None
      end
  | Seq r1 r2 => rmatch r1 st (fun st' => rmatch r2 st' k)
  | Alt r1 r2 =>
      match rmatch r1 st k with
      | Some a => Some a
      | None => rmatch r2 st k
      end
  | Star true p => star_greedy p k (before st) (rest st) (caps st)
  | Star false p => star_lazy p k (before st) (rest st) (caps st)
  | WordB => if xorb (word_at (before st)) (word_at (rest st)) then k st else None
  | Bol => match before st with [] => k st | _ :: _ => None end
  | Eol => match rest st with [] => k st | _ :: _ => None end
  | Group n r' =>
      rmatch r' st
        (fun st' => k (MState (before st') (rest st') ((n, consumed st st') :: caps st')))
  end.
End Matcher.

(** One attempt at one position: the length of the match and its groups. *)
Definition match_at (re : regex) (b : list N) (s : jsstring) : option (nat * captures) :=
  rmatch re (MState b s []) (fun st' => Some (length s - length (rest st'), caps st')).

(** A match as [RegExp.prototype.exec] reports it. *)
Record rmatch_result : Type := Hit {
  m_index : nat;
  m_end : nat;
  m_caps : captures
}.

(** [while ((m = re.exec(s)) !== null)] with the global flag: the matches from
    left to right, each search resuming at [lastIndex].  [skip] counts the
    code units of the current match still to step over.  An empty match would
    step one unit on, as [replace] and [matchAll] do; no pattern of the
    program matches the empty string. *)
Fixpoint exec_loop (re : regex) (b : list N) (s : jsstring) (skip : nat)
  : list rmatch_result :=
  match s with
  | [] =>
      match skip with
      | S _ => []
      | O =>
          match match_at re b [] with
          | Some (len, c) => [Hit (length b) (length b + len) c]
          | None => []
          end
      end
  | x :: s' =>
      match skip with
      | S k => exec_loop re (x :: b) s' k
      | O =>
          match match_at re b s with
          | Some (len, c) =>
              Hit (length b) (length b + len) c :: exec_loop re (x :: b) s' (len - 1)
          | None => exec_loop re (x :: b) s' 0
          end
      end
  end.

Definition exec_all (re : regex) (s : jsstring) : list rmatch_result :=
  exec_loop re [] s 0.

(** [s.replace(re, "")] with the global flag. *)
Fixpoint remove_loop (re : regex) (b : list N) (s : jsstring) (skip : nat) : jsstring :=
  match s with
  | [] => []
  | x :: s' =>
      match skip with
      | S k => remove_loop re (x :: b) s' k
      | O =>
          match match_at re b s with
          | Some (S k, _) => remove_loop re (x :: b) s' k
          | Some (O, _) => x :: remove_loop re (x :: b) s' 0
          | None => x :: remove_loop re (x :: b) s' 0
          end
      end
  end.

Definition remove_all (re : regex) (s : jsstring) : jsstring := remove_loop re [] s 0.

(** [s.replace(re, "")] without the global flag: the first match only. *)
Fixpoint remove_first_from (re : regex) (b : list N) (s : jsstring) : jsstring :=
  match match_at re b s with
  | Some (len, _) => skipn len s
  | None =>
      match s with
      | [] => []
      | x :: s' => x :: remove_first_from re (x :: b) s'
      end
  end.

Definition remove_first (re : regex) (s : jsstring) : jsstring :=
  remove_first_from re [] s.

(** Pattern building blocks. *)
Definition is_char (c : N) : N -> bool := N.eqb c.

(** A pattern character under the [i] flag. *)
Definition is_char_ci (c : N) : N -> bool := fun x => N.eqb (lower1 x) (lower1 c).

Fixpoint seq_of (f : N -> N -> bool) (w : jsstring) : regex :=
  match w with
  | [] => Eps
  | c :: w' => Seq (Chr (f c)) (seq_of f w')
  end.

Definition Lit (w : string) : regex := seq_of is_char (lit w).
Definition LitCI (w : string) : regex := seq_of is_char_ci (lit w).
Arguments Lit w%_string.
Arguments LitCI w%_string.
Definition Opt (r : regex) : regex := Alt r Eps.
Definition Plus (greedy : bool) (p : N -> bool) : regex := Seq (Chr p) (Star greedy p).

Fixpoint alts (rs : list regex) : regex :=
  match rs with
  | [] => Chr (fun _ => false)
  | [r] => r
  | r :: rs' => Alt r (alts rs')
  end.

(** ** Values *)

(** The values [parseFillFromUser] is defined on: strings, [true], and the
    falsy values (the contract of [processMessage] passes a string). *)
Inductive jsval : Type :=
| VUndefined
| VNull
| VBool (b : bool)
| VZero
| VNaN
| VStr (s : jsstring).

Definition is_empty (s : jsstring) : bool :=
  match s with
  | [] => true
  | _ :: _ => false
  end.

Definition truthy (v : jsval) : bool :=
  match v with
  | VBool b => b
  | VStr s => negb (is_empty s)
  | VUndefined | VNull | VZero | VNaN => false
  end.

(** [String(v)]. *)
Definition String_of (v : jsval) : jsstring :=
  match v with
  | VUndefined => lit "undefined"
  | VNull => lit "null"
  | VBool true => lit "true"
  | VBool false => lit "false"
  | VZero => lit "0"
  | VNaN => lit "NaN"
  | VStr s => s
  end.

(** What [JSON.parse] returns.  A number is kept as its source text: reading
    it as a binary64 and printing it back are left to the platform. *)
Inductive json : Type :=
| JNull
| JBool (b : bool)
| JNum (lexeme : jsstring)
| JStr (s : jsstring)
| JArr (items : list json)
| JObj (props : list (jsstring * json)).

(** The runtime functions the embedding does not define: [JSON.parse] ([None]
    when it throws SyntaxError), whether a number is neither zero nor NaN, and
    [Number.prototype.toString]. *)
Record Platform : Type := {
  JSON_parse : jsstring -> option json;
  Number_truthy : jsstring -> bool;
  Number_toString : jsstring -> jsstring
}.

(** [o.key] on a parsed value: own properties only matter here, since
    [Object.prototype] has no [field], [selector] or [value]; of a repeated
    key the last occurrence counts; [None] is undefined. *)
Fixpoint lookup_last (key : jsstring) (props : list (jsstring * json)) : option json :=
  match props with
  | [] => None
  | (k, v) :: props' =>
      match lookup_last key props' with
      | Some v' => Some v'
      | None => if jsstring_eqb k key then Some v else None
      end
  end.

Definition get_prop (o : json) (key : string) : option json :=
  match o with
  | JObj props => lookup_last (lit key) props
  | _ => None
  end.
Arguments get_prop o key%_string.

Definition json_truthy (P : Platform) (v : option json) : bool :=
  match v with
  | None | Some JNull => false
  | Some (JBool b) => b
  | Some (JNum x) => Number_truthy P x
  | Some (JStr s) => negb (is_empty s)
  | Some (JArr _) | Some (JObj _) => true
  end.

Definition has_own (key : string) (props : list (jsstring * json)) : bool :=
  existsb (fun kv => jsstring_eqb (fst kv) (lit key)) props.
Arguments has_own key%_string props.

(** [String(v)] on a parsed value; [None] when it throws TypeError: an object
    that carries its own [toString] key has no callable conversion left. *)
Fixpoint json_String (P : Platform) (v : json) : option jsstring :=
  match v with
  | JNull => Some (lit "null")
  | JBool true => Some (lit "true")
  | JBool false => Some (lit "false")
  | JNum x => Some (Number_toString P x)
  | JStr s => Some s
  | JArr items =>
      let fix elems (l : list json) : option (list jsstring) :=
        match l with
        | [] => Some []
        | x :: l' =>
            match (match x with JNull => Some [] | _ => json_String P x end), elems l' with
            | Some a, Some r => Some (a :: r)
            | _, _ => None
            end
        end in
      match elems items with
      | Some parts => Some (join (lit ",") parts)
      | None => None
      end
  | JObj props =>
      if has_own "toString" props then None else Some (lit "[object Object]")
  end.

(** ** Data shared by the two services *)

(** [{ text, actions }], over the actions of a service. *)
Record Result (A : Type) : Type := mkResult {
  text : jsstring;
  actions : list A
}.

Record FillIntent : Type := mkFill {
  field : jsstring;
  value : jsstring
}.

Record turn : Type := mkTurn {
  role : jsstring;
  content : jsstring
}.

Inductive grole : Type := RModel | RUser.

Record gturn : Type := mkGTurn {
  g_role : grole;
  g_text : jsstring
}.

(** What a failed step throws: a value with a string [message], a value
    without one, or [null]/[undefined]. *)
Inductive thrown : Type :=
| ThrownMessage (message : jsstring)
| ThrownNoMessage
| ThrownNullish.

(** The chat session of the external model: it receives the normalized
    history (the prompt, a function of the user message and the page
    snapshot, is part of it) and answers with text or throws. *)
Definition Chat := list gturn -> thrown + jsstring.

(** How a call of an [async] function ends: its promise resolves with a
    result, or rejects because the [catch] block itself threw a TypeError. *)
Inductive outcome (A : Type) : Type :=
| Resolved (r : Result A)
| RejectedTypeError.
Arguments RejectedTypeError {A}.

(** [try { body } catch (error) { handler }]. *)
Definition try_catch (A : Type) (body : thrown + Result A)
           (handler : thrown -> outcome A) : outcome A :=
  match body with
  | inr r => Resolved r
  | inl error => handler error
  end.

(** [/\[ACTION:[^\]]+\]/g], the pattern both services strip the text with. *)
Definition tagRe : regex :=
  Seq (Lit "[ACTION:")
      (Seq (Plus true (fun x => negb (N.eqb x 93))) (Lit "]")).

(** ** The deterministic fill-intent extractor *)

Definition allowedFields : list jsstring :=
  [lit "name"; lit "email"; lit "message"; lit "search"].

Definition set_has (set : list jsstring) (x : jsstring) : bool :=
  existsb (jsstring_eqb x) set.

(** [/\b(?:fill|add|set)\s+(name|email|message|search)\s*(?:field)?\s*(?:as|to|=)?\s*/gi] *)
Definition fillTriggerRe : regex :=
  Seq WordB
  (Seq (alts [LitCI "fill"; LitCI "add"; LitCI "set"])
  (Seq (Plus true is_space)
  (Seq (Group 1 (alts [LitCI "name"; LitCI "email"; LitCI "message"; LitCI "search"]))
  (Seq (Star true is_space)
  (Seq (Opt (LitCI "field"))
  (Seq (Star true is_space)
  (Seq (Opt (alts [LitCI "as"; LitCI "to"; LitCI "="]))
       (Star true is_space)))))))).

(** [/^[,:-]\s*/] *)
Definition leadSepRe : regex :=
  Seq Bol (Seq (Chr (one_of [44; 58; 45]%N)) (Star true is_space)).

(** [/[,\s]+$/] *)
Definition trailSepRe : regex :=
  Seq (Plus true (fun x => (N.eqb x 44 || is_space x)%bool)) Eol.

Record hit : Type := mkHit {
  h_field : jsstring;
  matchIndex : nat;
  valueStart : nat
}.

Definition or_empty (o : option jsstring) : jsstring :=
  match o with
  | Some s => s
  | None => []
  end.

Definition hit_of (m : rmatch_result) : hit :=
  mkHit (toLowerCase (or_empty (get_cap 1 (m_caps m)))) (m_index m) (m_end m).

Definition find_hits (t : jsstring) : list hit :=
  List.map hit_of (exec_all fillTriggerRe t).

(** Lines 48-50: trim, strip one leading separator, strip trailing commas and
    white space. *)
Definition clean_value (span : jsstring) : jsstring :=
  remove_first trailSepRe (remove_first leadSepRe (trim span)).

(** The span that follows hit [h], up to the next hit or the end of [t]. *)
Definition span_of (t : jsstring) (h : hit) (next : list hit) : jsstring :=
  slice t (valueStart h)
        (match next with
         | h' :: _ => matchIndex h'
         | [] => length t
         end).

(** The loop of lines 44-53. *)
Fixpoint collect (t : jsstring) (hits : list hit) : list FillIntent :=
  match hits with
  | [] => []
  | h :: next =>
      let value := clean_value (span_of t h next) in
      if is_empty value then collect t next
      else mkFill (h_field h) value :: collect t next
  end.

(** [final[k] = v] on an object with string keys: a new key goes last, a
    known key keeps its place. *)
Fixpoint obj_set (o : list (jsstring * jsstring)) (k v : jsstring)
  : list (jsstring * jsstring) :=
  match o with
  | [] => [(k, v)]
  | (k', v') :: o' =>
      if jsstring_eqb k' k then (k', v) :: o' else (k', v') :: obj_set o' k v
  end.

(** [final[x.field] = x.value]. *)
Definition set_field (final : list (jsstring * jsstring)) (x : FillIntent)
  : list (jsstring * jsstring) :=
  obj_set final (field x) (value x).

Definition dedup (out : list FillIntent) : list (jsstring * jsstring) :=
  fold_left set_field out [].

(** [Object.entries(final).map(...)]: the keys are never integer-like, so the
    order is the insertion order. *)
Definition entries (final : list (jsstring * jsstring)) : list FillIntent :=
  List.map (fun kv => mkFill (fst kv) (snd kv)) final.

Definition parseFillFromUser (text : jsval) : list FillIntent :=
  let t := trim (String_of (if truthy text then text else VStr [])) in
  if is_empty t then []
  else entries (dedup (collect t (find_hits t))).

(** ** The history normalizer (the same code in both services) *)

(** [a.slice(-n)]. *)
Definition last_n (T : Type) (n : nat) (l : list T) : list T :=
  skipn (length l - n) l.

Definition is_model (g : gturn) : bool :=
  match g_role g with
  | RModel => true
  | RUser => false
  end.

Definition grole_eqb (a b : grole) : bool :=
  match a, b with
  | RModel, RModel | RUser, RUser => true
  | _, _ => false
  end.

Definition to_gemini (msg : turn) : gturn :=
  mkGTurn (if jsstring_eqb (role msg) (lit "assistant") then RModel else RUser)
          (content msg).

(** The [while] loop that advances [startIndex] over leading model turns. *)
Fixpoint startIndex_of (geminiHistory : list gturn) : nat :=
  match geminiHistory with
  | g :: tl => if is_model g then S (startIndex_of tl) else 0
  | [] => 0
  end.

(** [a[a.length - 1]], undefined ([None]) on an empty array. *)
Fixpoint last_item (T : Type) (l : list T) : option T :=
  match l with
  | [] => None
  | [x] => Some x
  | _ :: l' => last_item l'
  end.

(** One pass of the [for] loop that fills [cleanedHistory]. *)
Definition push_turn (cleanedHistory : list gturn) (current : gturn) : list gturn :=
  match last_item cleanedHistory with
  | None => cleanedHistory ++ [current]
  | Some previous =>
      if grole_eqb (g_role previous) (g_role current) then cleanedHistory
      else cleanedHistory ++ [current]
  end.

Definition normalizeHistory (conversationHistory : list turn) : list gturn :=
  match conversationHistory with
  | [] => []
  | _ :: _ =>
      let recentHistory := last_n 6 conversationHistory in
      let geminiHistory := List.map to_gemini recentHistory in
      let history := skipn (startIndex_of geminiHistory) geminiHistory in
      fold_left push_turn history []
  end.

(** ** The newer service (the source file with [parseFillFromUser]) *)

Module Service.

Inductive action : Type :=
| ScrollToSection (sectionId : jsstring)
| ScrollPage (direction : jsstring)
| FillSelector (selector : jsstring) (value : json)
| FillField (field : jsstring) (value : json).

Definition allowedSections : list jsstring :=
  [lit "home"; lit "about"; lit "projects"; lit "contact"].

Definition allowedDirections : list jsstring :=
  [lit "up"; lit "down"; lit "top"; lit "bottom"].

(** [/\[ACTION:scroll_to_section:([a-zA-Z0-9_-]+)\]/g] *)
Definition sectionRe : regex :=
  Seq (Lit "[ACTION:scroll_to_section:")
      (Seq (Group 1 (Plus true is_idchar)) (Lit "]")).

(** [/\[ACTION:scroll_page:([a-zA-Z0-9_-]+)\]/g] *)
Definition pageRe : regex :=
  Seq (Lit "[ACTION:scroll_page:")
      (Seq (Group 1 (Plus true is_idchar)) (Lit "]")).

(** [/\[ACTION:fill_input:(\{.*?\})\]/g] *)
Definition fillRe : regex :=
  Seq (Lit "[ACTION:fill_input:")
      (Seq (Group 1 (Seq (Lit "{") (Seq (Star false is_dot) (Lit "}")))) (Lit "]")).

Definition group1 (m : rmatch_result) : jsstring := or_empty (get_cap 1 (m_caps m)).

Definition section_step (actions : list action) (m : rmatch_result) : list action :=
  let sectionId := toLowerCase (group1 m) in
  if set_has allowedSections sectionId then actions ++ [ScrollToSection sectionId]
  else actions.

Definition page_step (actions : list action) (m : rmatch_result) : list action :=
  let direction := toLowerCase (group1 m) in
  if set_has allowedDirections direction then actions ++ [ScrollPage direction]
  else actions.

(** [obj?.key ? String(obj.key) : ""]; [None] when [String] throws. *)
Definition string_prop (P : Platform) (obj : json) (key : string) : option jsstring :=
  if json_truthy P (get_prop obj key) then
    match get_prop obj key with
    | Some v => json_String P v
    | None => Some []
    end
  else Some [].
Arguments string_prop P obj key%_string.

(** [obj?.value ?? ""]. *)
Definition value_prop (obj : json) : json :=
  match get_prop obj "value" with
  | None | Some JNull => JStr []
  | Some v => v
  end.

(** The body of the [try] at lines 165-172; [None] when a step throws. *)
Definition fill_try (P : Platform) (actions : list action) (payload : jsstring)
  : option (list action) :=
  match JSON_parse P payload with
  | None => None
  | Some obj =>
      match string_prop P obj "field" with
      | None => None
      | Some field0 =>
          let field := toLowerCase field0 in
          match string_prop P obj "selector" with
          | None => None
          | Some selector =>
              let value := value_prop obj in
              if negb (is_empty selector) then
                Some (actions ++ [FillSelector selector value])
              else if (negb (is_empty field) && set_has allowedFields field)%bool then
                Some (actions ++ [FillField field value])
              else Some actions
          end
      end
  end.

(** [try { ... } catch {}]: a throw leaves [actions] as it was. *)
Definition fill_step (P : Platform) (actions : list action) (m : rmatch_result)
  : list action :=
  match fill_try P actions (group1 m) with
  | Some actions' => actions'
  | None => actions
  end.

(** Lines 141-174: the three scans, each pushing onto the same array. *)
Definition modelActions (P : Platform) (rawText : jsstring) : list action :=
  let actions := fold_left section_step (exec_all sectionRe rawText) [] in
  let actions := fold_left page_step (exec_all pageRe rawText) actions in
  fold_left (fill_step P) (exec_all fillRe rawText) actions.

Definition forcedFills (userMessage : jsstring) : list FillIntent :=
  filter (fun x => set_has allowedFields (field x)) (parseFillFromUser (VStr userMessage)).

(** [a.type === "fill_input" && a.data?.field === f]. *)
Definition fills_field (f : jsstring) (a : action) : bool :=
  match a with
  | FillField g _ => jsstring_eqb g f
  | _ => false
  end.

Definition merge_step (actions : list action) (f : FillIntent) : list action :=
  let exists_ := existsb (fills_field (field f)) actions in
  if exists_ then actions
  else actions ++ [FillField (field f) (JStr (value f))].

Definition merge (actions : list action) (forced : list FillIntent) : list action :=
  fold_left merge_step forced actions.

Definition cleanText (rawText : jsstring) : jsstring :=
  trim (remove_all tagRe rawText).

Definition confirmation (forced : list FillIntent) : jsstring :=
  lit "Done. Filled: " ++ join (lit ", ") (List.map field forced) ++ lit ".".

(** [error?.message || "Unknown error"]. *)
Definition message_or_unknown (error : thrown) : jsstring :=
  match error with
  | ThrownMessage ((_ :: _) as message) => message
  | _ => lit "Unknown error"
  end.

(** The [try] block after the model answered with [rawText]. *)
Definition respond (P : Platform) (userMessage rawText : jsstring) : Result action :=
  let forced := forcedFills userMessage in
  let actions := merge (modelActions P rawText) forced in
  let cleanedText :=
    match forced with
    | [] => cleanText rawText
    | _ :: _ => confirmation forced
    end in
  mkResult cleanedText actions.

Definition processMessage (P : Platform) (chat : Chat)
           (userMessage : jsstring) (conversationHistory : list turn) : outcome action :=
  try_catch
    (match chat (normalizeHistory conversationHistory) with
     | inr rawText => inr (respond P userMessage rawText)
     | inl error => inl error
     end)
    (fun error => Resolved (mkResult (lit "Error: " ++ message_or_unknown error) [])).

End Service.

(** ** The older service, [services/geminiService.js] *)

Module GeminiService.

Inductive action : Type :=
| ScrollToSection (sectionId : jsstring)
| Highlight (text : jsstring)
| Click (text : jsstring)
| Fill (selector value : jsstring).

Definition not_char (c : N) : N -> bool := fun x => negb (N.eqb x c).

(** [actionPatterns]. *)
Definition sectionRe : regex :=
  Seq (Lit "[ACTION:scroll_to_section:") (Seq (Group 1 (Plus true is_word)) (Lit "]")).
Definition highlightRe : regex :=
  Seq (Lit "[ACTION:highlight:") (Seq (Group 1 (Plus false is_dot)) (Lit "]")).
Definition clickRe : regex :=
  Seq (Lit "[ACTION:click:") (Seq (Group 1 (Plus false is_dot)) (Lit "]")).
Definition fillRe : regex :=
  Seq (Lit "[ACTION:fill:")
      (Seq (Group 1 (Plus true (not_char 58)))
           (Seq (Lit ":") (Seq (Group 2 (Plus false is_dot)) (Lit "]")))).

Definition group (n : nat) (m : rmatch_result) : jsstring :=
  or_empty (get_cap n (m_caps m)).

Definition scan (re : regex) (mk : rmatch_result -> action)
           (responseText : jsstring) (actionResults : list action) : list action :=
  fold_left (fun acc m => acc ++ [mk m]) (exec_all re responseText) actionResults.

(** The [try] block after the model answered: the tags are stripped from
    [responseText] first, and the four scans run on the stripped text. *)
Definition respond (rawText : jsstring) : Result action :=
  let responseText := remove_all tagRe rawText in
  let actionResults := scan sectionRe (fun m => ScrollToSection (group 1 m)) responseText [] in
  let actionResults := scan highlightRe (fun m => Highlight (trim (group 1 m))) responseText actionResults in
  let actionResults := scan clickRe (fun m => Click (trim (group 1 m))) responseText actionResults in
  let actionResults :=
    scan fillRe (fun m => Fill (trim (group 1 m)) (trim (group 2 m))) responseText actionResults in
  mkResult (trim responseText) actionResults.

(** [error.message?.includes(w)], undefined (falsy) without a message. *)
Definition message_includes (message : option jsstring) (w : string) : bool :=
  match message with
  | Some m => includes m (lit w)
  | None => false
  end.
Arguments message_includes message w%_string.

(** The [catch] block once [error.message] could be read. *)
Definition errorMessage (message : option jsstring) : jsstring :=
  lit "I apologize, but I encountered an error. " ++
  (if message_includes message "API_KEY" then lit "API key configuration issue."
   else if (message_includes message "quota" || message_includes message "429")%bool
        then lit "API quota exceeded. Please try again later."
   else if (message_includes message "403" || message_includes message "permission")%bool
        then lit "API access denied. Please verify API permissions."
   else if (message_includes message "network" || message_includes message "fetch")%bool
        then lit "Network error. Please check your internet connection."
   else lit "Error details: " ++
        match message with
        | Some ((_ :: _) as m) => m
        | _ => lit "Unknown error"
        end ++ lit ".").

(** Reading [error.message] of [null] or [undefined] throws. *)
Definition handler (error : thrown) : outcome action :=
  match error with
  | ThrownNullish => RejectedTypeError
  | ThrownMessage m => Resolved (mkResult (errorMessage (Some m)) [])
  | ThrownNoMessage => Resolved (mkResult (errorMessage None) [])
  end.

Definition processMessage (chat : Chat)
           (userMessage : jsstring) (conversationHistory : list turn) : outcome action :=
  try_catch
    (match chat (normalizeHistory conversationHistory) with
     | inr rawText => inr (respond rawText)
     | inl error => inl error
     end)
    handler.

End GeminiService.

(** ** A reference platform

    A reader of JSON texts after ECMA-404, used to run the services on
    concrete model outputs.  Numbers keep their source text; their printing is
    exact for numerals already in the form [Number.prototype.toString]
    produces ([5], [1.5]). *)

Module Reference.

Fixpoint skip_ws (s : jsstring) : jsstring :=
  match s with
  | x :: s' => if one_of [32; 9; 10; 13]%N x then skip_ws s' else s
  | [] => []
  end.

Definition hex_digit (x : N) : option N :=
  if is_digit x then Some (x - 48)%N
  else if between 97 102 x then Some (x - 87)%N
  else if between 65 70 x then Some (x - 55)%N
  else None.

Definition hex4 (a b c d : N) : option N :=
  match hex_digit a, hex_digit b, hex_digit c, hex_digit d with
  | Some a', Some b', Some c', Some d' => Some (((a' * 16 + b') * 16 + c') * 16 + d')%N
  | _, _, _, _ => None
  end.

Definition escape (e : N) : option N :=
  if one_of [34; 92; 47]%N e then Some e
  else if N.eqb e 98 then Some 8%N
  else if N.eqb e 102 then Some 12%N
  else if N.eqb e 110 then Some 10%N
  else if N.eqb e 114 then Some 13%N
  else if N.eqb e 116 then Some 9%N
  else None.

(** The characters of a string after its opening quote. *)
Fixpoint read_chars (s acc : jsstring) : option (jsstring * jsstring) :=
  match s with
  | [] => None
  | x :: s' =>
      if N.eqb x 34 then Some (rev acc, s')
      else if N.eqb x 92 then
        match s' with
        | e :: s'' =>
            if N.eqb e 117 then
              match s'' with
              | a :: b :: c :: d :: s3 =>
                  match hex4 a b c d with
                  | Some u => read_chars s3 (u :: acc)
                  | None => None
                  end
              | _ => None
              end
            else
              match escape e with
              | Some u => read_chars s'' (u :: acc)
              | None => None
              end
        | [] => None
        end
      else if N.ltb x 32 then None
      else read_chars s' (x :: acc)
  end.

Fixpoint read_digits (s : jsstring) : jsstring * jsstring :=
  match s with
  | x :: s' =>
      if is_digit x then let (d, r) := read_digits s' in (x :: d, r) else ([], s)
  | [] => ([], [])
  end.

(** A numeral: an optional minus, an integer part without a leading zero,
    an optional fraction and an optional exponent. *)
Definition read_number (s : jsstring) : option (jsstring * jsstring) :=
  let (sign, s1) :=
    match s with
    | x :: s' => if N.eqb x 45 then ([x], s') else ([], s)
    | [] => ([], s)
    end in
  let (int, s2) := read_digits s1 in
  match int with
  | [] => None
  | d :: more =>
      if (N.eqb d 48 && negb (is_empty more))%bool then None
      else
        let frac :=
          match s2 with
          | x :: s' =>
              if N.eqb x 46 then
                match read_digits s' with
                | ([], _) => None
                | (f, r) => Some (x :: f, r)
                end
              else Some ([], s2)
          | [] => Some ([], s2)
          end in
        match frac with
        | None => None
        | Some (f, s3) =>
            let exp :=
              match s3 with
              | x :: s' =>
                  if one_of [101; 69]%N x then
                    let (sg, s4) :=
                      match s' with
                      | y :: s'' => if one_of [43; 45]%N y then ([y], s'') else ([], s')
                      | [] => ([], s')
                      end in
                    match read_digits s4 with
                    | ([], _) => None
                    | (e, r) => Some (x :: sg ++ e, r)
                    end
                  else Some ([], s3)
              | [] => Some ([], s3)
              end in
            match exp with
            | None => None
            | Some (e, s5) => Some (sign ++ int ++ f ++ e, s5)
            end
        end
  end.

Definition expect (w : string) (s : jsstring) : option jsstring :=
  if starts_with (lit w) s then Some (skipn (length (lit w)) s) else None.
Arguments expect w%_string s.

Fixpoint read_value (fuel : nat) (s : jsstring) : option (json * jsstring) :=
  match fuel with
  | O => None
  | S fuel' =>
      match skip_ws s with
      | [] => None
      | x :: s' =>
          if N.eqb x 123 then
            match skip_ws s' with
            | y :: s'' => if N.eqb y 125 then Some (JObj [], s'')
                          else read_members fuel' s' []
            | [] => None
            end
          else if N.eqb x 91 then
            match skip_ws s' with
            | y :: s'' => if N.eqb y 93 then Some (JArr [], s'')
                          else read_items fuel' s' []
            | [] => None
            end
          else if N.eqb x 34 then
            match read_chars s' [] with
            | Some (str, r) => Some (JStr str, r)
            | None => None
            end
          else if N.eqb x 116 then option_map (pair (JBool true)) (expect "true" (x :: s'))
          else if N.eqb x 102 then option_map (pair (JBool false)) (expect "false" (x :: s'))
          else if N.eqb x 110 then option_map (pair JNull) (expect "null" (x :: s'))
          else
            match read_number (x :: s') with
            | Some (lexeme, r) => Some (JNum lexeme, r)
            | None => None
            end
      end
  end
with read_items (fuel : nat) (s : jsstring) (acc : list json) : option (json * jsstring) :=
  match fuel with
  | O => None
  | S fuel' =>
      match read_value fuel' s with
      | Some (v, r) =>
          match skip_ws r with
          | y :: r' =>
              if N.eqb y 44 then read_items fuel' r' (v :: acc)
              else if N.eqb y 93 then Some (JArr (rev (v :: acc)), r')
              else None
          | [] => None
          end
      | None => None
      end
  end
with read_members (fuel : nat) (s : jsstring) (acc : list (jsstring * json))
     : option (json * jsstring) :=
  match fuel with
  | O => None
  | S fuel' =>
      match skip_ws s with
      | q :: s' =>
          if N.eqb q 34 then
            match read_chars s' [] with
            | Some (key, r) =>
                match skip_ws r with
                | c :: r' =>
                    if N.eqb c 58 then
                      match read_value fuel' r' with
                      | Some (v, r2) =>
                          match skip_ws r2 with
                          | y :: r3 =>
                              if N.eqb y 44 then read_members fuel' r3 ((key, v) :: acc)
                              else if N.eqb y 125 then Some (JObj (rev ((key, v) :: acc)), r3)
                              else None
                          | [] => None
                          end
                      | None => None
                      end
                    else None
                | [] => None
                end
            | None => None
            end
          else None
      | [] => None
      end
  end.

Definition parse (s : jsstring) : option json :=
  match read_value (2 * length s + 2) s with
  | Some (v, r) => if is_empty (skip_ws r) then Some v else None
  | None => None
  end.

Fixpoint mantissa (lexeme : jsstring) : jsstring :=
  match lexeme with
  | x :: l => if one_of [101; 69]%N x then [] else x :: mantissa l
  | [] => []
  end.

Definition number_truthy (lexeme : jsstring) : bool :=
  existsb (fun d => between 49 57 d) (mantissa lexeme).

Definition platform : Platform :=
  {| JSON_parse := parse; Number_truthy := number_truthy; Number_toString := fun l => l |}.

End Reference.

(** ** Declarative readings used in the statements *)

(** What a pattern can match, as a relation between the states before and
    after; the matcher is sound for it. *)
Inductive matches : regex -> mstate -> mstate -> Prop :=
| M_eps st : matches Eps st st
| M_chr p x b s c : p x = true -> matches (Chr p) (MState b (x :: s) c) (MState (x :: b) s c)
| M_seq r1 r2 st st1 st2 :
    matches r1 st st1 -> matches r2 st1 st2 -> matches (Seq r1 r2) st st2
| M_alt_l r1 r2 st st' : matches r1 st st' -> matches (Alt r1 r2) st st'
| M_alt_r r1 r2 st st' : matches r2 st st' -> matches (Alt r1 r2) st st'
| M_star_stop g p st : matches (Star g p) st st
| M_star_step g p x b s c st' :
    p x = true ->
    matches (Star g p) (MState (x :: b) s c) st' ->
    matches (Star g p) (MState b (x :: s) c) st'
| M_wordb st : xorb (word_at (before st)) (word_at (rest st)) = true -> matches WordB st st
| M_bol st : before st = [] -> matches Bol st st
| M_eol st : rest st = [] -> matches Eol st st
| M_group n r st st' :
    matches r st st' ->
    matches (Group n r) st (MState (before st') (rest st') ((n, consumed st st') :: caps st')).



(** The first turn of every run of turns with the same role, [prev] being the
    role of the turn just before. *)
Fixpoint first_of_each_run (prev : option grole) (l : list gturn) : list gturn :=
  match l with
  | [] => []
  | g :: tl =>
      match prev with
      | Some r => if grole_eqb r (g_role g) then first_of_each_run prev tl
                  else g :: first_of_each_run (Some (g_role g)) tl
      | None => g :: first_of_each_run (Some (g_role g)) tl
      end
  end.

(** A list of keys with every repetition after the first left out. *)
Fixpoint first_seen (seen keys : list jsstring) : list jsstring :=
  match keys with
  | [] => []
  | k :: tl =>
      if set_has seen k then first_seen seen tl
      else k :: first_seen (k :: seen) tl
  end.

(** The value of the last intent of [out] for field [f]. *)
Fixpoint last_value (f : jsstring) (out : list FillIntent) : option jsstring :=
  match out with
  | [] => None
  | x :: tl =>
      match last_value f tl with
      | Some v => Some v
      | None => if jsstring_eqb (field x) f then Some (value x) else None
      end
  end.

(** Every trigger of [t] with the value derived from its span, empty values
    included. *)
Fixpoint derived (t : jsstring) (hits : list hit) : list FillIntent :=
  match hits with
  | [] => []
  | h :: next => mkFill (h_field h) (clean_value (span_of t h next)) :: derived t next
  end.

Definition triggers (t : jsstring) : list FillIntent := derived t (find_hits t).

(** The text [parseFillFromUser] scans. *)
Definition scanned (text : jsval) : jsstring :=
  trim (String_of (if truthy text then text else VStr [])).

(** The action of a forced fill. *)
Definition forced_action (f : FillIntent) : Service.action :=
  Service.FillField (field f) (JStr (value f)).

(** Patterns without a capture group, and patterns that do not look at what
    was read before the current position. *)
Fixpoint has_group (r : regex) : bool :=
  match r with
  | Group _ _ => true
  | Seq r1 r2 | Alt r1 r2 => (has_group r1 || has_group r2)%bool
  | _ => false
  end.


(** A lower bound on the number of code units a match of [r] reads. *)
Fixpoint min_len (r : regex) : nat :=
  match r with
  | Chr _ => 1
  | Seq r1 r2 => min_len r1 + min_len r2
  | Alt r1 r2 => Nat.min (min_len r1) (min_len r2)
  | Group _ r' => min_len r'
  | _ => 0
  end.

(** The patterns the program runs in a [while (exec)] loop. *)
Definition loop_patterns : list regex :=
  [fillTriggerRe; Service.sectionRe; Service.pageRe; Service.fillRe;
   GeminiService.sectionRe; GeminiService.highlightRe; GeminiService.clickRe;
   GeminiService.fillRe].

(** [s] does not go on with a code unit of class [p]. *)
Definition stops (p : N -> bool) (s : jsstring) : Prop :=
  match s with
  | x :: _ => p x = false
  | [] => True
  end.

(** The shape of the two scroll patterns: a literal opening, one or more code
    units of a class captured as group 1, and the closing bracket. *)
Definition tag_with (opening : string) (p : N -> bool) : regex :=
  Seq (Lit opening) (Seq (Group 1 (Plus true p)) (Lit "]")).
Arguments tag_with opening%_string p.

Definition not_bracket (x : N) : bool := negb (N.eqb x 93).

(** What one occurrence of a tag contributes to the action list. *)
Definition section_emits (m : rmatch_result) : list Service.action :=
  Service.section_step [] m.

Definition page_emits (m : rmatch_result) : list Service.action :=
  Service.page_step [] m.

Definition fill_emits (P : Platform) (payload : jsstring) : list Service.action :=
  match Service.fill_try P [] payload with
  | Some emitted => emitted
  | None => []
  end.

(** The payloads of the fill_input tags of a text, from left to right. *)
Definition payloads (rawText : jsstring) : list jsstring :=
  List.map Service.group1 (exec_all Service.fillRe rawText).


(** ** Readings used for the further properties *)

(** What the allow-lists of the newer service let through. *)
Definition valid_action (a : Service.action) : Prop :=
  match a with
  | Service.ScrollToSection sectionId => In sectionId Service.allowedSections
  | Service.ScrollPage direction => In direction Service.allowedDirections
  | Service.FillSelector selector _ => selector <> []
  | Service.FillField f _ => In f allowedFields
  end.

Definition is_section (a : Service.action) : bool :=
  match a with
  | Service.ScrollToSection _ => true
  | _ => false
  end.

Definition is_page (a : Service.action) : bool :=
  match a with
  | Service.ScrollPage _ => true
  | _ => false
  end.

Definition is_fill (a : Service.action) : bool :=
  match a with
  | Service.FillSelector _ _ | Service.FillField _ _ => true
  | _ => false
  end.

(** The patterns that look for a tag, and the one that strips them. *)
Definition tag_patterns : list regex :=
  [tagRe; Service.sectionRe; Service.pageRe; Service.fillRe;
   GeminiService.sectionRe; GeminiService.highlightRe; GeminiService.clickRe;
   GeminiService.fillRe].

(** A model output made of text without opening bracket and of tags whose
    body holds no closing bracket, next to the same text without the tags. *)
Inductive well_tagged : jsstring -> jsstring -> Prop :=
| wt_nil : well_tagged [] []
| wt_char x raw plain :
    x <> 91%N -> well_tagged raw plain -> well_tagged (x :: raw) (x :: plain)
| wt_tag body raw plain :
    body <> [] -> forallb not_bracket body = true -> well_tagged raw plain ->
    well_tagged (lit "[ACTION:" ++ body ++ lit "]" ++ raw) plain.

(** A comma or a white space: what [trailSepRe] repeats. *)
Definition is_trailing (x : N) : bool := (N.eqb x 44 || is_space x)%bool.

(** A value as the extractor hands it out: not empty, no white space at
    either end, no comma at the end. *)
Definition clean (v : jsstring) : Prop :=
  v <> [] /\ is_space (hd 0%N v) = false /\ is_trailing (last v 0%N) = false.

(** Patterns whose classes do not tell a letter from its lower case. *)
Fixpoint case_blind (r : regex) : Prop :=
  match r with
  | Chr p | Star _ p => forall x, p (lower1 x) = p x
  | Seq r1 r2 | Alt r1 r2 => case_blind r1 /\ case_blind r2
  | Group _ r' => case_blind r'
  | _ => True
  end.

Definition lower_caps (c : captures) : captures :=
  List.map (fun e => (fst e, toLowerCase (snd e))) c.

Definition lower_state (st : mstate) : mstate :=
  MState (toLowerCase (before st)) (toLowerCase (rest st)) (lower_caps (caps st)).

Definition lower_hit (m : rmatch_result) : rmatch_result :=
  Hit (m_index m) (m_end m) (lower_caps (m_caps m)).

(** An intent with its value in lower case. *)
Definition lower_value (x : FillIntent) : FillIntent :=
  mkFill (field x) (toLowerCase (value x)).

Definition lower_values (o : list (jsstring * jsstring)) : list (jsstring * jsstring) :=
  List.map (fun kv => (fst kv, toLowerCase (snd kv))) o.

(** The words of the trigger pattern. *)
Definition verbs : list jsstring := [lit "fill"; lit "add"; lit "set"].
Definition connectors : list jsstring := [lit "as"; lit "to"; lit "="].

(** A request of the form "<verb> <field> <connector> ". *)
Definition phrase (verb fieldName connector : jsstring) : jsstring :=
  verb ++ 32%N :: fieldName ++ 32%N :: connector ++ [32%N].


(** ** The HTTP endpoint, [server.js]

    [POST /api/chat] with a parsed JSON body.  The body's [message] is a
    [jsval] (a missing key reads as [undefined]); [conversationHistory] is an
    array or missing; [pageContent] reaches the prompt only, which is part of
    the chat session.  A truthy message that is not a string enters the
    service's text as [String(message)]. *)

Module Server.

Inductive reply (A : Type) : Type :=
| Json200 (response : Result A)
| Json400 (error : jsstring)
| Json500 (error message : jsstring).
Arguments Json400 {A} error.
Arguments Json500 {A} error message.

(** [conversationHistory || []]: an array is truthy, also when it is empty. *)
Definition or_empty_log (conversationHistory : option (list turn)) : list turn :=
  match conversationHistory with
  | Some log => log
  | None => []
  end.

(** The handler of [app.post('/api/chat')]: a rejected promise of
    [processMessage] is caught by the handler's own [catch] block. *)
Definition chat (A : Type) (processMessage : jsstring -> list turn -> outcome A)
           (message : jsval) (conversationHistory : option (list turn)) : reply A :=
  if negb (truthy message) then Json400 (lit "Message is required")
  else
    match processMessage (String_of message) (or_empty_log conversationHistory) with
    | Resolved response => Json200 response
    | RejectedTypeError =>
        Json500 (lit "Internal server error") (lit "Failed to process message")
    end.



End Server.

(** * Properties *)

(** ** Strings *)

Lemma jsstring_eqb_eq (a b : jsstring) : jsstring_eqb a b = true <-> a = b.
Proof.
  unfold jsstring_eqb. destruct (list_eq_dec N.eq_dec a b); split; congruence.
Qed.

Lemma jsstring_eqb_refl (a : jsstring) : jsstring_eqb a a = true.
Proof. now apply jsstring_eqb_eq. Qed.

Lemma jsstring_eqb_neq (a b : jsstring) : jsstring_eqb a b = false <-> a <> b.
Proof.
  unfold jsstring_eqb. destruct (list_eq_dec N.eq_dec a b); split; congruence.
Qed.

Lemma set_has_In (set : list jsstring) (x : jsstring) : set_has set x = true <-> In x set.
Proof.
  unfold set_has. rewrite existsb_exists. split.
  - intros [y [Hy E]]. apply jsstring_eqb_eq in E. now subst.
  - intros H. exists x. split; [assumption | apply jsstring_eqb_refl].
Qed.

(** ** The matcher is sound for [matches] *)

Lemma star_greedy_sound (A : Type) (p : N -> bool) (k : mstate -> option A) (a : A) :
  forall s b c,
    star_greedy p k b s c = Some a ->
    exists st', matches (Star true p) (MState b s c) st' /\ k st' = Some a.
Proof.
  induction s as [|x s IH]; intros b c H; simpl in H.
  - eexists; split; [apply M_star_stop | exact H].
  - destruct (p x) eqn:Hp.
    + destruct (star_greedy p k (x :: b) s c) eqn:E.
      * inversion H; subst. destruct (IH _ _ E) as [st' [Hm Hk]].
        exists st'. split; [now apply M_star_step | exact Hk].
      * eexists; split; [apply M_star_stop | exact H].
    + eexists; split; [apply M_star_stop | exact H].
Qed.

Lemma star_lazy_sound (A : Type) (p : N -> bool) (k : mstate -> option A) (a : A) :
  forall s b c,
    star_lazy p k b s c = Some a ->
    exists st', matches (Star false p) (MState b s c) st' /\ k st' = Some a.
Proof.
  induction s as [|x s IH]; intros b c H; simpl in H.
  - destruct (k (MState b [] c)) eqn:E; [|discriminate].
    eexists; split; [apply M_star_stop | congruence].
  - destruct (k (MState b (x :: s) c)) eqn:E.
    + eexists; split; [apply M_star_stop | congruence].
    + destruct (p x) eqn:Hp; [|discriminate].
      destruct (IH _ _ H) as [st' [Hm Hk]].
      exists st'. split; [now apply M_star_step | exact Hk].
Qed.

Theorem rmatch_sound (A : Type) (r : regex) :
  forall (st : mstate) (k : mstate -> option A) (a : A),
    rmatch r st k = Some a ->
    exists st', matches r st st' /\ k st' = Some a.
Proof.
  induction r as [ |p|r1 IH1 r2 IH2|r1 IH1 r2 IH2|g p| | | |n r IH]; intros st k a H; simpl in H.
  - exists st. split; [constructor | exact H].
  - destruct st as [b s c]; simpl in H. destruct s as [|x s]; [discriminate|].
    destruct (p x) eqn:Hp; [|discriminate].
    eexists; split; [now apply M_chr | exact H].
  - destruct (IH1 _ _ _ H) as [st1 [H1 Hk1]].
    destruct (IH2 _ _ _ Hk1) as [st2 [H2 Hk2]].
    exists st2. split; [eapply M_seq; eassumption | exact Hk2].
  - destruct (rmatch r1 st k) eqn:E.
    + inversion H; subst. destruct (IH1 _ _ _ E) as [st' [Hm Hk]].
      exists st'. split; [now apply M_alt_l | exact Hk].
    + destruct (IH2 _ _ _ H) as [st' [Hm Hk]].
      exists st'. split; [now apply M_alt_r | exact Hk].
  - destruct st as [b s c]; simpl in H. destruct g.
    + now apply star_greedy_sound.
    + now apply star_lazy_sound.
  - destruct (xorb (word_at (before st)) (word_at (rest st))) eqn:E; [|discriminate].
    exists st. split; [now apply M_wordb | exact H].
  - destruct (before st) eqn:E; [|discriminate].
    exists st. split; [now apply M_bol | exact H].
  - destruct (rest st) eqn:E; [|discriminate].
    exists st. split; [now apply M_eol | exact H].
  - destruct (IH _ _ _ H) as [st' [Hm Hk]].
    eexists. split; [apply M_group; exact Hm | exact Hk].
Qed.

(** A match reads at least [min_len] code units. *)
Lemma matches_min_len (r : regex) (st st' : mstate) :
  matches r st st' -> length (rest st') + min_len r <= length (rest st).
Proof.
  induction 1; cbn [min_len rest length] in *; lia.
Qed.

(** What a match reads is a prefix of the input, pushed onto [before]. *)
Lemma matches_consumes (r : regex) (st st' : mstate) :
  matches r st st' ->
  exists w, rest st = w ++ rest st' /\ before st' = rev w ++ before st.
Proof.
  induction 1; simpl.
  - now exists [].
  - now exists [x].
  - destruct IHmatches1 as [w1 [E1 B1]]. destruct IHmatches2 as [w2 [E2 B2]].
    exists (w1 ++ w2). rewrite E1, E2, B2, B1, rev_app_distr, !app_assoc. now split.
  - assumption.
  - assumption.
  - now exists [].
  - destruct IHmatches as [w [E B]]. simpl in *.
    exists (x :: w). simpl. rewrite E, B, <- app_assoc. now split.
  - now exists [].
  - now exists [].
  - now exists [].
  - assumption.
Qed.

Lemma consumed_app (b b' : list N) (w s : jsstring) (c c' : captures) :
  consumed (MState b (w ++ s) c) (MState b' s c') = w.
Proof.
  unfold consumed; simpl. rewrite length_app.
  replace (length w + length s - length s) with (length w) by lia.
  rewrite firstn_app, firstn_all, Nat.sub_diag. simpl. apply app_nil_r.
Qed.

Lemma matches_caps (r : regex) (st st' : mstate) :
  has_group r = false -> matches r st st' -> caps st' = caps st.
Proof.
  intros Hg Hm. induction Hm; simpl in *; try reflexivity; try discriminate.
  - apply orb_false_iff in Hg. destruct Hg as [G1 G2].
    now rewrite IHHm2, IHHm1.
  - apply orb_false_iff in Hg. now apply IHHm.
  - apply orb_false_iff in Hg. now apply IHHm.
  - now apply IHHm.
Qed.

Lemma matches_star (g : bool) (p : N -> bool) (st st' : mstate) :
  matches (Star g p) st st' ->
  exists run, forallb p run = true /\ rest st = run ++ rest st' /\
              before st' = rev run ++ before st /\ caps st' = caps st.
Proof.
  intros H. remember (Star g p) as r eqn:Er.
  induction H; try discriminate.
  - exists []. now repeat split.
  - inversion Er; subst. destruct (IHmatches eq_refl) as [run [F [E [B C]]]].
    simpl in *. exists (x :: run). simpl. rewrite H, F, E, B, <- app_assoc. now repeat split.
Qed.

Lemma matches_seq_of (f : N -> N -> bool) (w : jsstring) :
  forall st st',
    matches (seq_of f w) st st' ->
    exists u, Forall2 (fun c x => f c x = true) w u /\ rest st = u ++ rest st' /\
              before st' = rev u ++ before st /\ caps st' = caps st.
Proof.
  induction w as [|c w IH]; intros st st' H; simpl in H.
  - inversion H; subst. exists []. now repeat split.
  - inversion H as [ | |r1 r2 s0 s1 s2 H1 H2| | | | | | | | ]; subst.
    inversion H1; subst. destruct (IH _ _ H2) as [u [F [E [B C]]]]. simpl in *.
    exists (x :: u). simpl. rewrite E, B, C, <- app_assoc. repeat split; try reflexivity.
    now constructor.
Qed.

Lemma Forall2_is_char (w u : jsstring) :
  Forall2 (fun c x => is_char c x = true) w u -> u = w.
Proof.
  induction 1 as [|c x w u H _ IH]; [reflexivity|].
  apply N.eqb_eq in H. now subst.
Qed.

Lemma matches_Lit (w : string) (st st' : mstate) :
  matches (Lit w) st st' ->
  rest st = lit w ++ rest st' /\ before st' = rev (lit w) ++ before st /\ caps st' = caps st.
Proof.
  intros H. apply matches_seq_of in H. destruct H as [u [F [E [B C]]]].
  apply Forall2_is_char in F. subst u. now repeat split.
Qed.

(** ** The history normalizer *)







Lemma last_item_snoc (T : Type) (l : list T) (x : T) : last_item (l ++ [x]) = Some x.
Proof.
  induction l as [|y l IH]; [reflexivity|].
  simpl. rewrite IH. destruct (l ++ [x]) eqn:E; [|reflexivity].
  destruct l; discriminate.
Qed.

(** The [for] loop keeps the first turn of each run. *)
Lemma fold_push_turn (h : list gturn) :
  forall cleaned,
    fold_left push_turn h cleaned =
    cleaned ++ first_of_each_run (option_map g_role (last_item cleaned)) h.
Proof.
  induction h as [|g h IH]; intros cleaned; simpl.
  - now rewrite app_nil_r.
  - rewrite IH. unfold push_turn.
    destruct (last_item cleaned) as [previous|] eqn:E; simpl.
    + destruct (grole_eqb (g_role previous) (g_role g)) eqn:R.
      * now rewrite E.
      * rewrite last_item_snoc, <- app_assoc. reflexivity.
    + rewrite last_item_snoc, <- app_assoc. reflexivity.
Qed.






Lemma normalizeHistory_eq (log : list turn) :
  normalizeHistory log =
  first_of_each_run None
    (skipn (startIndex_of (List.map to_gemini (last_n 6 log)))
           (List.map to_gemini (last_n 6 log))).
Proof.
  destruct log as [|m log]; [reflexivity|].
  unfold normalizeHistory. now rewrite fold_push_turn.
Qed.


(** ** Failure of the model call *)


Lemma gemini_nullish_rejects (chat : Chat) (userMessage : jsstring) (log : list turn) :
  chat (normalizeHistory log) = inl ThrownNullish ->
  GeminiService.processMessage chat userMessage log = RejectedTypeError.
Proof. intros H. unfold GeminiService.processMessage. now rewrite H. Qed.




(** ** Falsy and blank input of the extractor *)

Lemma trimStart_blank (s : jsstring) : forallb is_space s = true -> trimStart s = [].
Proof.
  induction s as [|x s IH]; simpl; [reflexivity|].
  intros H. apply andb_true_iff in H. destruct H as [Hx Hs]. rewrite Hx. now apply IH.
Qed.

Lemma trim_blank (s : jsstring) : forallb is_space s = true -> trim s = [].
Proof. intros H. unfold trim. now rewrite trimStart_blank. Qed.

(** C10: on null, undefined, any other falsy value, or a string of white space
    only, the extractor returns the empty sequence; the coercion and the trim
    come first and are total. *)
Theorem C10_falsy_or_blank_input (text : jsval) :
  truthy text = false \/ (exists s, text = VStr s /\ forallb is_space s = true) ->
  scanned text = [] /\ parseFillFromUser text = [].
Proof.
  intros H.
  assert (E : scanned text = []).
  { unfold scanned. destruct H as [H | [s [-> H]]].
    - rewrite H. reflexivity.
    - destruct (truthy (VStr s)); simpl; [now apply trim_blank | reflexivity]. }
  split; [exact E|].
  unfold parseFillFromUser. fold (scanned text). now rewrite E.
Qed.

Lemma C10_falsy_or_blank_input_witness :
  scanned VNull = [] /\ parseFillFromUser VNull = [].
Proof. apply (@C10_falsy_or_blank_input VNull). left. reflexivity. Defined.

(** ** The object that removes repeated fields *)

Lemma jsstring_eqb_sym (a b : jsstring) : jsstring_eqb a b = jsstring_eqb b a.
Proof.
  destruct (jsstring_eqb b a) eqn:E.
  - apply jsstring_eqb_eq in E. subst. apply jsstring_eqb_refl.
  - apply jsstring_eqb_neq in E. apply jsstring_eqb_neq. congruence.
Qed.

Lemma set_has_app (a b : list jsstring) (x : jsstring) :
  set_has (a ++ b) x = (set_has a x || set_has b x)%bool.
Proof. unfold set_has. apply existsb_app. Qed.

Lemma keys_obj_set (o : list (jsstring * jsstring)) (k v : jsstring) :
  List.map fst (obj_set o k v) =
  if set_has (List.map fst o) k then List.map fst o else List.map fst o ++ [k].
Proof.
  induction o as [|[k' v'] o IH]; simpl; [reflexivity|].
  rewrite (jsstring_eqb_sym k k').
  destruct (jsstring_eqb k' k) eqn:E; simpl; [reflexivity|].
  rewrite IH. now destruct (set_has (List.map fst o) k).
Qed.

Lemma NoDup_keys_obj_set (o : list (jsstring * jsstring)) (k v : jsstring) :
  NoDup (List.map fst o) -> NoDup (List.map fst (obj_set o k v)).
Proof.
  intros H. rewrite keys_obj_set.
  destruct (set_has (List.map fst o) k) eqn:E; [assumption|].
  apply NoDup_app; [assumption | repeat constructor; auto | ].
  intros x Hx [<- | []]. apply set_has_In in Hx. congruence.
Qed.

Lemma In_obj_set (o : list (jsstring * jsstring)) (k v k' v' : jsstring) :
  NoDup (List.map fst o) ->
  (In (k', v') (obj_set o k v) <-> (k' = k /\ v' = v) \/ (k' <> k /\ In (k', v') o)).
Proof.
  induction o as [|[k0 v0] o IH]; simpl; intros Hnd.
  - split.
    + intros [E | []]. inversion E; subst. now left.
    + intros [[-> ->] | [_ []]]. now left.
  - inversion Hnd as [|? ? Hnotin Hnd']; subst.
    destruct (jsstring_eqb k0 k) eqn:E; simpl.
    + apply jsstring_eqb_eq in E. subst k0. split.
      * intros [H | H].
        -- inversion H; subst. now left.
        -- right. split; [|now right]. intros ->. apply Hnotin.
           change k with (fst (k, v')). now apply in_map.
      * intros [[-> ->] | [Hn [H | H]]]; [now left | | now right].
        inversion H; subst. congruence.
    + apply jsstring_eqb_neq in E. rewrite (IH Hnd'). split.
      * intros [H | [[-> ->] | [Hn H]]].
        -- inversion H; subst. right. split; [congruence | now left].
        -- now left.
        -- right. split; [assumption | now right].
      * intros [[-> ->] | [Hn [H | H]]].
        -- right. now left.
        -- now left.
        -- right. right. now split.
Qed.

Lemma dedup_fold (out : list FillIntent) : dedup out = fold_left set_field out [].
Proof. reflexivity. Qed.

Lemma fold_set_field_NoDup (out : list FillIntent) :
  forall o, NoDup (List.map fst o) -> NoDup (List.map fst (fold_left set_field out o)).
Proof.
  induction out as [|x out IH]; intros o H; simpl; [assumption|].
  apply IH. now apply NoDup_keys_obj_set.
Qed.

Lemma fold_set_field_keys (out : list FillIntent) :
  forall o seen,
    (forall k, set_has seen k = set_has (List.map fst o) k) ->
    List.map fst (fold_left set_field out o) =
    List.map fst o ++ first_seen seen (List.map field out).
Proof.
  induction out as [|x out IH]; intros o seen Hs; simpl.
  - now rewrite app_nil_r.
  - rewrite Hs. unfold set_field at 2.
    destruct (set_has (List.map fst o) (field x)) eqn:E.
    + rewrite (IH _ seen).
      * now rewrite keys_obj_set, E.
      * intros k. now rewrite keys_obj_set, E.
    + rewrite (IH _ (field x :: seen)).
      * rewrite keys_obj_set, E, <- app_assoc. reflexivity.
      * intros k. rewrite keys_obj_set, E, set_has_app. simpl.
        rewrite Hs, orb_false_r. apply orb_comm.
Qed.

Lemma fold_set_field_values (out : list FillIntent) :
  forall o f v,
    NoDup (List.map fst o) ->
    (In (f, v) (fold_left set_field out o) <->
     last_value f out = Some v \/ (last_value f out = None /\ In (f, v) o)).
Proof.
  induction out as [|x out IH]; intros o f v Hnd; simpl.
  - split; [now right | intros [H | [_ H]]; [discriminate | assumption]].
  - rewrite IH by now apply NoDup_keys_obj_set.
    unfold set_field. rewrite In_obj_set by assumption.
    destruct (last_value f out) as [w|] eqn:L.
    + split; intros [H | [H _]]; try discriminate; now left.
    + destruct (jsstring_eqb (field x) f) eqn:E.
      * apply jsstring_eqb_eq in E. split.
        -- intros [H | [_ [[_ ->] | [Hn _]]]]; [discriminate | now left | congruence].
        -- intros [H | [H _]]; [|discriminate]. inversion H; subst.
           right. split; [reflexivity|]. left. now split.
      * apply jsstring_eqb_neq in E. split.
        -- intros [H | [_ [[-> _] | [Hn H]]]]; [discriminate | congruence | now right].
        -- intros [H | [_ H]]; [discriminate|]. right. split; [reflexivity|].
           right. split; [congruence | assumption].
Qed.

Lemma entries_fields (final : list (jsstring * jsstring)) :
  List.map field (entries final) = List.map fst final.
Proof. unfold entries. rewrite map_map. reflexivity. Qed.

Lemma In_entries (final : list (jsstring * jsstring)) (f v : jsstring) :
  In (mkFill f v) (entries final) <-> In (f, v) final.
Proof.
  unfold entries. rewrite in_map_iff. split.
  - intros [[k w] [E H]]. simpl in E. now inversion E; subst.
  - intros H. now exists (f, v).
Qed.

(** ** One intent per field *)

Lemma collect_filter (t : jsstring) (hits : list hit) :
  collect t hits = filter (fun x => negb (is_empty (value x))) (derived t hits).
Proof.
  induction hits as [|h next IH]; simpl; [reflexivity|].
  destruct (is_empty (clean_value (span_of t h next))); simpl; now rewrite IH.
Qed.

Lemma find_hits_nil : find_hits [] = [].
Proof. reflexivity. Qed.

Lemma parseFillFromUser_eq (text : jsval) :
  parseFillFromUser text =
  entries (dedup (collect (scanned text) (find_hits (scanned text)))).
Proof.
  unfold parseFillFromUser. fold (scanned text).
  destruct (scanned text) as [|x t]; reflexivity.
Qed.

Lemma parseFillFromUser_NoDup (text : jsval) :
  NoDup (List.map field (parseFillFromUser text)).
Proof.
  rewrite parseFillFromUser_eq, entries_fields, dedup_fold.
  apply fold_set_field_NoDup. constructor.
Qed.

(** C2, as the code has it: among the triggers whose derived value is not
    empty, the extractor returns one intent per field, carrying the value of
    the last such trigger of that field, in the order of each field's first
    such trigger. *)
Theorem C2_one_intent_per_field (text : jsval) :
  let out := filter (fun x => negb (is_empty (value x))) (triggers (scanned text)) in
  let result := parseFillFromUser text in
  NoDup (List.map field result) /\
  List.map field result = first_seen [] (List.map field out) /\
  (forall f v, In (mkFill f v) result <-> last_value f out = Some v).
Proof.
  intros out result.
  assert (E : result = entries (dedup out)).
  { unfold result, out, triggers. now rewrite parseFillFromUser_eq, collect_filter. }
  split; [apply parseFillFromUser_NoDup|]. split.
  - rewrite E, entries_fields, dedup_fold.
    now rewrite (fold_set_field_keys out [] []).
  - intros f v. rewrite E, In_entries, dedup_fold.
    rewrite fold_set_field_values by constructor. simpl. tauto.
Qed.

(** C2 as stated fails when a trigger has an empty value: the last trigger of
    "message" below derives the empty value yet "A" is returned, and "name",
    first triggered before "email", comes after it in the result. *)
Lemma C2_counterexample :
  (triggers (lit "set message to A set message to") =
     [mkFill (lit "message") (lit "A"); mkFill (lit "message") []] /\
   parseFillFromUser (VStr (lit "set message to A set message to")) =
     [mkFill (lit "message") (lit "A")]) /\
  (triggers (lit "fill name fill email as x fill name as y") =
     [mkFill (lit "name") []; mkFill (lit "email") (lit "x"); mkFill (lit "name") (lit "y")] /\
   parseFillFromUser (VStr (lit "fill name fill email as x fill name as y")) =
     [mkFill (lit "email") (lit "x"); mkFill (lit "name") (lit "y")]).
Proof. repeat split; vm_compute; reflexivity. Qed.

(** ** The reconciler *)

Lemma existsb_snoc (T : Type) (p : T -> bool) (l : list T) (x : T) :
  existsb p (l ++ [x]) = (existsb p l || p x)%bool.
Proof. rewrite existsb_app. simpl. now rewrite orb_false_r. Qed.

(** With distinct fields, the loop appends the forced fills whose field no
    model-derived fill has, in their order. *)
Lemma merge_eq (forced : list FillIntent) :
  forall acts,
    NoDup (List.map field forced) ->
    Service.merge acts forced =
    acts ++ List.map forced_action
              (filter (fun f => negb (existsb (Service.fills_field (field f)) acts)) forced).
Proof.
  induction forced as [|f forced IH]; intros acts Hnd; simpl.
  - now rewrite app_nil_r.
  - inversion Hnd as [|? ? Hnotin Hnd']; subst.
    unfold Service.merge in *. simpl. unfold Service.merge_step at 2.
    destruct (existsb (Service.fills_field (field f)) acts) eqn:E; simpl.
    + now apply IH.
    + rewrite IH by assumption. rewrite <- app_assoc. simpl. do 3 f_equal.
      apply filter_ext_in. intros g Hg. rewrite existsb_snoc. simpl.
      assert (Hne : field f <> field g).
      { intros Heq. apply Hnotin. rewrite Heq. now apply in_map. }
      apply jsstring_eqb_neq in Hne. now rewrite Hne, orb_false_r.
Qed.

Lemma NoDup_map_filter (T K : Type) (key : T -> K) (p : T -> bool) (l : list T) :
  NoDup (List.map key l) -> NoDup (List.map key (filter p l)).
Proof.
  induction l as [|x l IH]; intros H; cbn [filter List.map]; [constructor|].
  inversion H as [|? ? Hnotin Hnd]; subst.
  destruct (p x); cbn [List.map]; [|now apply IH].
  constructor; [|now apply IH].
  intros Hin. apply in_map_iff in Hin. destruct Hin as [y [Ey Hy]].
  apply filter_In in Hy. destruct Hy as [Hy _].
  apply Hnotin. rewrite <- Ey. now apply in_map.
Qed.

Lemma forcedFills_NoDup (userMessage : jsstring) :
  NoDup (List.map field (Service.forcedFills userMessage)).
Proof. apply NoDup_map_filter, parseFillFromUser_NoDup. Qed.

Lemma respond_actions (P : Platform) (userMessage rawText : jsstring) :
  actions (Service.respond P userMessage rawText) =
  Service.modelActions P rawText ++
  List.map forced_action
    (filter (fun f => negb (existsb (Service.fills_field (field f))
                                    (Service.modelActions P rawText)))
            (Service.forcedFills userMessage)).
Proof.
  unfold Service.respond. simpl. apply merge_eq, forcedFills_NoDup.
Qed.


(** C9: the duplicate check never holds of a selector-based action, so when
    the model emitted a selector-based fill and no field-based fill for the
    field the user asked for, the final list holds the selector-based action
    and, after it, the forced field-based one. *)
Theorem C9_selector_fill_independent (P : Platform) (userMessage rawText : jsstring)
        (f : FillIntent) (selector : jsstring) (v : json) :
  In f (Service.forcedFills userMessage) ->
  In (Service.FillSelector selector v) (Service.modelActions P rawText) ->
  existsb (Service.fills_field (field f)) (Service.modelActions P rawText) = false ->
  (forall g, Service.fills_field g (Service.FillSelector selector v) = false) /\
  exists l1 l2 l3,
    actions (Service.respond P userMessage rawText) =
    l1 ++ Service.FillSelector selector v :: l2 ++ forced_action f :: l3.
Proof.
  intros Hf Hs Hex. split; [reflexivity|].
  rewrite respond_actions.
  apply in_split in Hs. destruct Hs as [l1 [l2 Es]].
  assert (Hin : In f (filter (fun f0 => negb (existsb (Service.fills_field (field f0))
                                                  (Service.modelActions P rawText)))
                             (Service.forcedFills userMessage))).
  { apply filter_In. split; [assumption | now rewrite Hex]. }
  apply in_split in Hin. destruct Hin as [d1 [d2 Ed]].
  rewrite Ed, Es, map_app. simpl.
  exists l1, (l2 ++ List.map forced_action d1), (List.map forced_action d2).
  now rewrite <- !app_assoc.
Qed.

Lemma C9_selector_fill_independent_witness :
  (forall g, Service.fills_field g (Service.FillSelector (lit "#name") (JStr (lit "Ved"))) = false) /\
  exists l1 l2 l3,
    actions (Service.respond Reference.platform (lit "fill name as Ved")
               (lit "[ACTION:fill_input:{" ++ quoted "selector" ++ lit ":" ++ quoted "#name" ++
                lit "," ++ quoted "value" ++ lit ":" ++ quoted "Ved" ++ lit "}]")) =
    l1 ++ Service.FillSelector (lit "#name") (JStr (lit "Ved")) :: l2 ++
    forced_action (mkFill (lit "name") (lit "Ved")) :: l3.
Proof.
  apply (@C9_selector_fill_independent Reference.platform (lit "fill name as Ved")
           (lit "[ACTION:fill_input:{" ++ quoted "selector" ++ lit ":" ++ quoted "#name" ++
            lit "," ++ quoted "value" ++ lit ":" ++ quoted "Ved" ++ lit "}]")
           (mkFill (lit "name") (lit "Ved")) (lit "#name") (JStr (lit "Ved"))).
  - vm_compute. left. reflexivity.
  - vm_compute. left. reflexivity.
  - vm_compute. reflexivity.
Defined.

(** ** The trigger pattern captures an allow-listed field *)

Lemma exec_loop_caps (re : regex) (Q : captures -> Prop) :
  (forall b s len c, match_at re b s = Some (len, c) -> Q c) ->
  forall s b skip m, In m (exec_loop re b s skip) -> Q (m_caps m).
Proof.
  intros HQ. induction s as [|x s IH]; intros b skip m H; simpl in H.
  - destruct skip; [|contradiction].
    destruct (match_at re b []) as [[len c]|] eqn:E; [|contradiction].
    destruct H as [<- | []]. simpl. eapply HQ; eassumption.
  - destruct skip as [|k]; [|eapply IH; eassumption].
    destruct (match_at re b (x :: s)) as [[len c]|] eqn:E; [|eapply IH; eassumption].
    destruct H as [<- | H]; [|eapply IH; eassumption].
    simpl. eapply HQ; eassumption.
Qed.

Lemma match_at_sound (re : regex) (b : list N) (s : jsstring) (len : nat) (c : captures) :
  match_at re b s = Some (len, c) ->
  exists st', matches re (MState b s []) st' /\ len = length s - length (rest st') /\
              c = caps st'.
Proof.
  intros H. unfold match_at in H. apply rmatch_sound in H.
  destruct H as [st' [Hm Hk]]. exists st'. inversion Hk. now repeat split.
Qed.

Lemma Forall2_ci_lower (w u : jsstring) :
  Forall2 (fun c x => is_char_ci c x = true) w u -> toLowerCase u = toLowerCase w.
Proof.
  induction 1 as [|c x w u H _ IH]; [reflexivity|].
  simpl. unfold is_char_ci in H. apply N.eqb_eq in H. now rewrite H, IH.
Qed.

Lemma matches_LitCI (w : string) (st st' : mstate) :
  matches (LitCI w) st st' ->
  toLowerCase (consumed st st') = toLowerCase (lit w) /\ caps st' = caps st.
Proof.
  intros H. apply matches_seq_of in H. destruct H as [u [F [E [B C]]]].
  destruct st as [b s c], st' as [b' s' c']; simpl in *. subst s.
  rewrite consumed_app. split; [now apply Forall2_ci_lower | assumption].
Qed.

Ltac inv H := inversion H; subst; clear H.


Ltac list_len := repeat (progress (cbn [length]; rewrite ?length_app)); lia.

Lemma trigger_capture (b : list N) (s : jsstring) (st' : mstate) :
  matches fillTriggerRe (MState b s []) st' ->
  exists w, caps st' = [(1, w)] /\ In (toLowerCase w) allowedFields.
Proof.
  unfold fillTriggerRe. intros H.
  inversion H as [ | |? ? ? st1 ? H1 H2| | | | | | | | ]; subst; clear H.
  inv H1.
  inversion H2 as [ | |? ? ? st2 ? H3 H4| | | | | | | | ]; subst; clear H2.
  apply matches_caps in H3; [|reflexivity].
  inversion H4 as [ | |? ? ? st3 ? H5 H6| | | | | | | | ]; subst; clear H4.
  apply matches_caps in H5; [|reflexivity].
  inversion H6 as [ | |? ? ? st4 ? H7 H8| | | | | | | | ]; subst; clear H6.
  apply matches_caps in H8; [|reflexivity].
  inversion H7 as [ | | | | | | | | | |? ? ? st5 H9]; subst; clear H7.
  simpl in H8. exists (consumed st3 st5).
  assert (K : caps st5 = caps st3 /\ In (toLowerCase (consumed st3 st5)) allowedFields).
  { cbn [alts] in H9.
    inv H9; [|match goal with K : matches (Alt _ _) _ _ |- _ => inv K end;
              [|match goal with K : matches (Alt _ _) _ _ |- _ => inv K end]];
    match goal with K : matches (LitCI _) _ _ |- _ =>
      apply matches_LitCI in K; destruct K as [K1 K2] end;
    (split; [assumption|]); rewrite K1; vm_compute; tauto. }
  destruct K as [K1 K2]. split; [|assumption].
  rewrite H8, K1, H5, H3. reflexivity.
Qed.

Lemma find_hits_allowed (t : jsstring) (h : hit) :
  In h (find_hits t) -> set_has allowedFields (h_field h) = true.
Proof.
  unfold find_hits, exec_all. intros H. apply in_map_iff in H.
  destruct H as [m [<- Hm]]. unfold hit_of; simpl.
  apply (@exec_loop_caps fillTriggerRe
           (fun c => set_has allowedFields (toLowerCase (or_empty (get_cap 1 c))) = true))
    in Hm; [assumption|].
  intros b s len c Hc. apply match_at_sound in Hc.
  destruct Hc as [st' [Hmt [_ ->]]]. apply trigger_capture in Hmt.
  destruct Hmt as [w [-> Hw]].
  change (or_empty (get_cap 1 [(1, w)])) with w. now apply set_has_In.
Qed.

Lemma collect_fields (t : jsstring) (hits : list hit) (x : FillIntent) :
  In x (collect t hits) -> exists h, In h hits /\ field x = h_field h.
Proof.
  induction hits as [|h next IH]; simpl; [contradiction|].
  destruct (is_empty (clean_value (span_of t h next))).
  - intros H. destruct (IH H) as [h' [Hh E]]. exists h'. auto.
  - intros [<- | H].
    + exists h. auto.
    + destruct (IH H) as [h' [Hh E]]. exists h'. auto.
Qed.

Lemma first_seen_In (keys : list jsstring) :
  forall seen k, In k (first_seen seen keys) -> In k keys.
Proof.
  induction keys as [|x keys IH]; intros seen k H; simpl in *; [contradiction|].
  destruct (set_has seen x).
  - right. eapply IH; eassumption.
  - destruct H as [-> | H]; [now left | right; eapply IH; eassumption].
Qed.

Lemma parseFillFromUser_allowed (text : jsval) (x : FillIntent) :
  In x (parseFillFromUser text) -> set_has allowedFields (field x) = true.
Proof.
  intros H. apply (in_map field) in H.
  rewrite parseFillFromUser_eq, entries_fields, dedup_fold in H.
  rewrite (fold_set_field_keys _ [] []) in H by reflexivity. simpl in H.
  apply first_seen_In in H. apply in_map_iff in H. destruct H as [y [Ey Hy]].
  apply collect_fields in Hy. destruct Hy as [h [Hh Eh]].
  rewrite <- Ey, Eh. eapply find_hits_allowed; eassumption.
Qed.




(** ** Values kept verbatim *)

Lemma trimStart_head (s : jsstring) (x : N) (tl : jsstring) :
  trimStart s = x :: tl -> is_space x = false.
Proof.
  induction s as [|y s IH]; simpl; [discriminate|].
  destruct (is_space y) eqn:E; [assumption|].
  intros H. inversion H; subst. assumption.
Qed.

Lemma last_rev (l : list N) (d : N) : last (rev l) d = hd d l.
Proof.
  destruct l as [|x l]; [reflexivity|]. simpl. apply last_last.
Qed.

Lemma trim_last (s : jsstring) : trim s <> [] -> is_space (last (trim s) 0%N) = false.
Proof.
  unfold trim, trimEnd. intros H. rewrite last_rev.
  destruct (trimStart (rev (trimStart s))) as [|x tl] eqn:E; [now elim H|].
  simpl. eapply trimStart_head; eassumption.
Qed.

Lemma remove_first_none (re : regex) (s : jsstring) :
  forall b,
    (forall p q, s = p ++ q -> match_at re (rev p ++ b) q = None) ->
    remove_first_from re b s = s.
Proof.
  induction s as [|x s IH]; intros b H; cbn [remove_first_from].
  - pose proof (H [] [] eq_refl) as H0. cbn [rev app] in H0. now rewrite H0.
  - pose proof (H [] (x :: s) eq_refl) as H0. cbn [rev app] in H0. rewrite H0.
    f_equal. apply IH.
    intros p q E. specialize (H (x :: p) q). cbn [rev app] in H.
    rewrite <- app_assoc in H. apply H. now rewrite E.
Qed.

Lemma leadSep_no_match (v : jsstring) :
  one_of [44; 58; 45]%N (hd 0%N v) = false ->
  remove_first leadSepRe v = v.
Proof.
  intros H. apply remove_first_none. intros p q E.
  unfold match_at, leadSepRe. simpl. rewrite app_nil_r.
  destruct p as [|y p]; simpl.
  - simpl in E. subst q. destruct v as [|x v]; [reflexivity|].
    simpl in H. now rewrite H.
  - destruct (rev p ++ [y]) eqn:K; [|reflexivity].
    destruct (rev p); discriminate.
Qed.

Lemma last_app_nonempty (p q : list N) (d : N) : q <> [] -> last (p ++ q) d = last q d.
Proof.
  intros H. induction p as [|x p IH]; [reflexivity|].
  simpl. rewrite IH. destruct (p ++ q) eqn:E; [|reflexivity].
  apply app_eq_nil in E. now destruct E.
Qed.

Lemma forallb_last (p : N -> bool) (x : N) (run : list N) (d : N) :
  p x = true -> forallb p run = true -> p (last (x :: run) d) = true.
Proof.
  revert x. induction run as [|y run IH]; intros x Hx Hr; [assumption|].
  simpl in Hr. apply andb_true_iff in Hr. destruct Hr as [Hy Hr].
  change (last (x :: y :: run) d) with (last (y :: run) d). now apply IH.
Qed.

Lemma trailSep_no_match (v : jsstring) :
  N.eqb (last v 0%N) 44 = false -> is_space (last v 0%N) = false ->
  remove_first trailSepRe v = v.
Proof.
  intros Hc Hs. apply remove_first_none. intros p q E.
  destruct (match_at trailSepRe (rev p ++ []) q) as [[len c]|] eqn:M; [|reflexivity].
  exfalso. apply match_at_sound in M. destruct M as [st' [Hm _]].
  unfold trailSepRe, Plus in Hm.
  inversion Hm as [ | |? ? ? st1 ? H1 H2| | | | | | | | ]; subst; clear Hm.
  inv H2.
  inversion H1 as [ | |? ? ? st2 ? H3 H4| | | | | | | | ]; subst; clear H1.
  inv H3. apply matches_star in H4. destruct H4 as [run [F [Er _]]].
  simpl in Er. match goal with K : rest st' = [] |- _ => rewrite K, app_nil_r in Er end.
  subst s. rewrite last_app_nonempty in Hc, Hs by discriminate.
  match goal with K : (_ || _)%bool = true |- _ =>
    pose proof (forallb_last (fun x => (N.eqb x 44 || is_space x)%bool) x run 0%N K F) as L
  end.
  cbv beta in L. rewrite Hc, Hs in L. discriminate.
Qed.

Lemma clean_value_verbatim (span : jsstring) :
  trim span <> [] ->
  one_of [44; 58; 45]%N (hd 0%N (trim span)) = false ->
  N.eqb (last (trim span) 0%N) 44 = false ->
  clean_value span = trim span.
Proof.
  intros Hne Hh Hl. unfold clean_value.
  rewrite leadSep_no_match by assumption.
  apply trailSep_no_match; [assumption | now apply trim_last].
Qed.

Lemma collect_later (t : jsstring) (h : hit) (hs2 : list hit) (x : FillIntent) :
  forall hs1, In x (collect t (h :: hs2)) -> In x (collect t (hs1 ++ h :: hs2)).
Proof.
  induction hs1 as [|h1 hs1 IH]; intros H; [assumption|].
  cbn [app collect]. destruct (is_empty (clean_value (span_of t h1 (hs1 ++ h :: hs2)))).
  - now apply IH.
  - right. now apply IH.
Qed.

(** C8, as the code has it: for every trigger whose trimmed span is not empty,
    does not begin with a comma, colon or hyphen and does not end with a
    comma, the intent extracted for that trigger carries the trimmed span
    unchanged; "fill email as ved@gmail.com" gives exactly "ved@gmail.com". *)
Theorem C8_value_verbatim (t : jsstring) (hs1 : list hit) (h : hit) (hs2 : list hit) :
  find_hits t = hs1 ++ h :: hs2 ->
  trim (span_of t h hs2) <> [] ->
  one_of [44; 58; 45]%N (hd 0%N (trim (span_of t h hs2))) = false ->
  N.eqb (last (trim (span_of t h hs2)) 0%N) 44 = false ->
  clean_value (span_of t h hs2) = trim (span_of t h hs2) /\
  In (mkFill (h_field h) (trim (span_of t h hs2))) (collect t (find_hits t)) /\
  parseFillFromUser (VStr (lit "fill email as ved@gmail.com")) =
  [mkFill (lit "email") (lit "ved@gmail.com")].
Proof.
  intros Eh Hne Hh Hl.
  pose proof (clean_value_verbatim _ Hne Hh Hl) as E.
  split; [exact E|]. split; [|vm_compute; reflexivity].
  rewrite Eh. apply collect_later. cbn [collect]. rewrite E.
  destruct (trim (span_of t h hs2)) eqn:K; [now elim Hne|].
  left. reflexivity.
Qed.

Lemma C8_value_verbatim_witness :
  clean_value (span_of (lit "fill email as ved@gmail.com") (mkHit (lit "email") 0 14) []) =
  trim (span_of (lit "fill email as ved@gmail.com") (mkHit (lit "email") 0 14) []) /\
  In (mkFill (h_field (mkHit (lit "email") 0 14))
        (trim (span_of (lit "fill email as ved@gmail.com") (mkHit (lit "email") 0 14) [])))
     (collect (lit "fill email as ved@gmail.com")
        (find_hits (lit "fill email as ved@gmail.com"))) /\
  parseFillFromUser (VStr (lit "fill email as ved@gmail.com")) =
  [mkFill (lit "email") (lit "ved@gmail.com")].
Proof.
  apply (@C8_value_verbatim (lit "fill email as ved@gmail.com") []
           (mkHit (lit "email") 0 14) []).
  - vm_compute. reflexivity.
  - vm_compute. discriminate.
  - vm_compute. reflexivity.
  - vm_compute. reflexivity.
Defined.

(** C8 as stated fails on a span that begins with a separator: the span
    "-Bob" has no trailing punctuation, and the value returned is "Bob". *)
Lemma C8_counterexample :
  find_hits (lit "set name to -Bob") = [mkHit (lit "name") 0 12] /\
  trim (span_of (lit "set name to -Bob") (mkHit (lit "name") 0 12) []) = lit "-Bob" /\
  triggers (lit "set name to -Bob") = [mkFill (lit "name") (lit "Bob")] /\
  parseFillFromUser (VStr (lit "set name to -Bob")) = [mkFill (lit "name") (lit "Bob")].
Proof. repeat split; vm_compute; reflexivity. Qed.

(** ** Matching a tag where it stands *)

Lemma rmatch_literal (A : Type) (w : jsstring) :
  forall (b : list N) (s : jsstring) (c : captures) (k : mstate -> option A),
    rmatch (seq_of is_char w) (MState b (w ++ s) c) k = k (MState (rev w ++ b) s c).
Proof.
  induction w as [|x w IH]; intros b s c k; simpl; [reflexivity|].
  unfold is_char at 1. rewrite N.eqb_refl, IH, <- app_assoc. reflexivity.
Qed.

Lemma rmatch_Lit (A : Type) (w : string) (b : list N) (s : jsstring) (c : captures)
      (k : mstate -> option A) :
  rmatch (Lit w) (MState b (lit w ++ s) c) k = k (MState (rev (lit w) ++ b) s c).
Proof. apply rmatch_literal. Qed.

Lemma star_greedy_full (A : Type) (p : N -> bool) (k : mstate -> option A) (a : A)
      (s : jsstring) (c : captures) :
  stops p s ->
  forall run b,
    forallb p run = true ->
    k (MState (rev run ++ b) s c) = Some a ->
    star_greedy p k b (run ++ s) c = Some a.
Proof.
  intros Hs. induction run as [|x run IH]; intros b F K; simpl in *.
  - destruct s as [|y s]; simpl; [assumption|]. simpl in Hs. now rewrite Hs.
  - apply andb_true_iff in F. destruct F as [Hx F]. rewrite Hx.
    rewrite (IH (x :: b)); [reflexivity | assumption |].
    now rewrite <- app_assoc in K.
Qed.

Lemma rmatch_Plus_full (A : Type) (p : N -> bool) (k : mstate -> option A) (a : A)
      (x : N) (run s : jsstring) (b : list N) (c : captures) :
  stops p s ->
  forallb p (x :: run) = true ->
  k (MState (rev (x :: run) ++ b) s c) = Some a ->
  rmatch (Plus true p) (MState b ((x :: run) ++ s) c) k = Some a.
Proof.
  intros Hs F K. simpl in F. apply andb_true_iff in F. destruct F as [Hx F].
  simpl. rewrite Hx. apply star_greedy_full; try assumption.
  simpl in K. now rewrite <- app_assoc in K.
Qed.

Lemma sectionRe_tag_with :
  Service.sectionRe = tag_with "[ACTION:scroll_to_section:" is_idchar.
Proof. reflexivity. Qed.

Lemma pageRe_tag_with : Service.pageRe = tag_with "[ACTION:scroll_page:" is_idchar.
Proof. reflexivity. Qed.


Lemma match_at_tagRe (b : list N) (x : N) (run post : jsstring) :
  forallb not_bracket (x :: run) = true ->
  match_at tagRe b (lit "[ACTION:" ++ (x :: run) ++ lit "]" ++ post) =
  Some (length (lit "[ACTION:" ++ (x :: run) ++ lit "]"), []).
Proof.
  intros F. unfold match_at, tagRe. cbn [rmatch].
  rewrite rmatch_Lit.
  apply rmatch_Plus_full; [reflexivity | exact F |].
  rewrite rmatch_Lit. cbn [rest caps]. f_equal. f_equal.
  rewrite !length_app. cbn [length]. lia.
Qed.

Lemma matches_Plus (g : bool) (p : N -> bool) (st st' : mstate) :
  matches (Plus g p) st st' ->
  exists x run, forallb p (x :: run) = true /\ rest st = (x :: run) ++ rest st' /\
                caps st' = caps st.
Proof.
  unfold Plus. intros H.
  inversion H as [ | |? ? ? st1 ? H1 H2| | | | | | | | ]; subst; clear H.
  inv H1. apply matches_star in H2. destruct H2 as [run [F [E [_ C]]]].
  simpl in *. exists x, run. rewrite F, E.
  match goal with K : p x = true |- _ => rewrite K end. now repeat split.
Qed.



(** ** Every occurrence of a tag is found *)

Lemma exec_loop_occurrence (re : regex) :
  forall s b skip m,
    In m (exec_loop re b s skip) ->
    exists p q, s = p ++ q /\
                match_at re (rev p ++ b) q = Some (m_end m - m_index m, m_caps m) /\
                m_index m = length b + length p.
Proof.
  induction s as [|x s IH]; intros b skip m H; cbn [exec_loop] in H.
  - destruct skip; [|contradiction].
    destruct (match_at re b []) as [[len c]|] eqn:E; [|contradiction].
    destruct H as [<- | []]. exists [], []. cbn [m_end m_index m_caps rev app length].
    replace (length b + len - length b) with len by lia.
    repeat split; [assumption | lia].
  - assert (Later : forall k, In m (exec_loop re (x :: b) s k) ->
              exists p q, x :: s = p ++ q /\
                match_at re (rev p ++ b) q = Some (m_end m - m_index m, m_caps m) /\
                m_index m = length b + length p).
    { intros k Hk. destruct (IH _ _ _ Hk) as [p [q [E [M I]]]].
      exists (x :: p), q. cbn [rev app length]. rewrite <- app_assoc.
      cbn [app length] in *. repeat split; [now rewrite E | assumption | lia]. }
    destruct skip as [|k]; [|now apply (Later k)].
    destruct (match_at re b (x :: s)) as [[len c]|] eqn:E; [|now apply (Later 0)].
    destruct H as [<- | H]; [|now apply (Later (len - 1))].
    exists [], (x :: s). cbn [m_end m_index m_caps rev app length].
    replace (length b + len - length b) with len by lia.
    repeat split; [assumption | lia].
Qed.


Lemma not_In_existsb (x : N) (l : list N) : existsb (N.eqb x) l = false -> ~ In x l.
Proof.
  intros H Hin. assert (K : existsb (N.eqb x) l = true).
  { apply existsb_exists. exists x. split; [assumption | apply N.eqb_refl]. }
  congruence.
Qed.



(** ** Patterns that do not look back *)






(** ** Every tag is stripped *)

Lemma remove_loop_skip (re : regex) (w : jsstring) :
  forall b s, remove_loop re b (w ++ s) (length w) = remove_loop re (rev w ++ b) s 0.
Proof.
  induction w as [|x w IH]; intros b s; [reflexivity|].
  cbn [app length remove_loop rev]. rewrite IH, <- app_assoc. reflexivity.
Qed.







(** ** The actions of the model text, occurrence by occurrence *)

Lemma fold_section_step (hits : list rmatch_result) :
  forall acc, fold_left Service.section_step hits acc = acc ++ flat_map section_emits hits.
Proof.
  induction hits as [|m hits IH]; intros acc; simpl; [now rewrite app_nil_r|].
  rewrite IH. unfold section_emits, Service.section_step.
  destruct (set_has Service.allowedSections (toLowerCase (Service.group1 m)));
    simpl; now rewrite <- ?app_assoc.
Qed.

Lemma fold_page_step (hits : list rmatch_result) :
  forall acc, fold_left Service.page_step hits acc = acc ++ flat_map page_emits hits.
Proof.
  induction hits as [|m hits IH]; intros acc; simpl; [now rewrite app_nil_r|].
  rewrite IH. unfold page_emits, Service.page_step.
  destruct (set_has Service.allowedDirections (toLowerCase (Service.group1 m)));
    simpl; now rewrite <- ?app_assoc.
Qed.

Lemma fill_step_emits (P : Platform) (acc : list Service.action) (m : rmatch_result) :
  Service.fill_step P acc m = acc ++ fill_emits P (Service.group1 m).
Proof.
  unfold Service.fill_step, fill_emits, Service.fill_try.
  destruct (JSON_parse P (Service.group1 m)) as [obj|]; [|now rewrite app_nil_r].
  destruct (Service.string_prop P obj "field") as [f0|]; [|now rewrite app_nil_r].
  destruct (Service.string_prop P obj "selector") as [sel|]; [|now rewrite app_nil_r].
  destruct (negb (is_empty sel)); [reflexivity|].
  destruct (negb (is_empty (toLowerCase f0)) && set_has allowedFields (toLowerCase f0))%bool;
    [reflexivity | now rewrite app_nil_r].
Qed.

Lemma fold_fill_step (P : Platform) (hits : list rmatch_result) :
  forall acc,
    fold_left (Service.fill_step P) hits acc =
    acc ++ flat_map (fill_emits P) (List.map Service.group1 hits).
Proof.
  induction hits as [|m hits IH]; intros acc; simpl; [now rewrite app_nil_r|].
  rewrite IH, fill_step_emits, <- app_assoc. reflexivity.
Qed.

Lemma modelActions_eq (P : Platform) (rawText : jsstring) :
  Service.modelActions P rawText =
  flat_map section_emits (exec_all Service.sectionRe rawText) ++
  flat_map page_emits (exec_all Service.pageRe rawText) ++
  flat_map (fill_emits P) (payloads rawText).
Proof.
  unfold Service.modelActions, payloads.
  rewrite fold_fill_step, fold_page_step, fold_section_step, <- app_assoc. reflexivity.
Qed.

Lemma In_section_emits (a : Service.action) (m : rmatch_result) :
  In a (section_emits m) ->
  a = Service.ScrollToSection (toLowerCase (Service.group1 m)) /\
  set_has Service.allowedSections (toLowerCase (Service.group1 m)) = true.
Proof.
  unfold section_emits, Service.section_step.
  destruct (set_has Service.allowedSections (toLowerCase (Service.group1 m)));
    [|contradiction].
  intros [<- | []]. now split.
Qed.

Lemma In_page_emits (a : Service.action) (m : rmatch_result) :
  In a (page_emits m) ->
  a = Service.ScrollPage (toLowerCase (Service.group1 m)) /\
  set_has Service.allowedDirections (toLowerCase (Service.group1 m)) = true.
Proof.
  unfold page_emits, Service.page_step.
  destruct (set_has Service.allowedDirections (toLowerCase (Service.group1 m)));
    [|contradiction].
  intros [<- | []]. now split.
Qed.










(** ** The fill_input tags *)








(** ** The scanning loops end *)

(** X14: no pattern run in a [while (exec)] loop matches the empty string, so
    each search resumes strictly further on and the loops of the source end. *)
Lemma loop_patterns_never_empty (re : regex) (b : list N) (s : jsstring)
      (len : nat) (c : captures) :
  In re loop_patterns -> match_at re b s = Some (len, c) -> 0 < len.
Proof.
  intros Hin Hm. apply match_at_sound in Hm. destruct Hm as [st' [Hm [-> _]]].
  apply matches_min_len in Hm. cbn [rest] in Hm.
  assert (K : 1 <= min_len re).
  { unfold loop_patterns in Hin.
    repeat (destruct Hin as [<- | Hin]; [vm_compute; lia|]). destruct Hin. }
  lia.
Qed.

Lemma loop_patterns_never_empty_witness :
  match_at fillTriggerRe [] (lit "set name to Ved") = Some (12, [(1, lit "name")]) /\ 0 < 12.
Proof.
  split; [vm_compute; reflexivity|].
  apply (@loop_patterns_never_empty fillTriggerRe [] (lit "set name to Ved") 12
           [(1, lit "name")]); [now left | vm_compute; reflexivity].
Defined.

(** * Further properties of the code *)

(** ** Text without an opening bracket *)

Lemma match_at_opening (w : string) (r : regex) (b : list N) (s : jsstring)
      (len : nat) (c : captures) :
  match_at (Seq (Lit w) r) b s = Some (len, c) -> exists s', s = lit w ++ s'.
Proof.
  intros H. apply match_at_sound in H. destruct H as [st' [Hm _]].
  inversion Hm as [ | |? ? ? st1 ? H1 H2| | | | | | | | ]; subst; clear Hm.
  apply matches_Lit in H1. destruct H1 as [E _]. cbn [rest] in E.
  eexists. exact E.
Qed.

Lemma tag_patterns_open (re : regex) (b : list N) (s : jsstring) (len : nat) (c : captures) :
  In re tag_patterns -> match_at re b s = Some (len, c) -> exists s', s = 91%N :: s'.
Proof.
  intros Hin Hm. unfold tag_patterns in Hin.
  repeat (destruct Hin as [<- | Hin];
          [apply match_at_opening in Hm; destruct Hm as [s' ->]; eexists; reflexivity|]).
  destruct Hin.
Qed.

Lemma tag_patterns_no_match (re : regex) (b : list N) (x : N) (s : jsstring) :
  In re tag_patterns -> x <> 91%N -> match_at re b (x :: s) = None.
Proof.
  intros Hin Hx. destruct (match_at re b (x :: s)) as [[len c]|] eqn:E; [|reflexivity].
  destruct (tag_patterns_open _ _ Hin E) as [s' Hs]. congruence.
Qed.

Lemma tag_patterns_no_match_nil (re : regex) (b : list N) :
  In re tag_patterns -> match_at re b [] = None.
Proof.
  intros Hin. destruct (match_at re b []) as [[len c]|] eqn:E; [|reflexivity].
  destruct (tag_patterns_open _ _ Hin E) as [s' Hs]. discriminate.
Qed.

(** Scanning steps over a stretch without opening bracket and finds nothing
    there. *)
Lemma exec_loop_free_prefix (re : regex) (pre : jsstring) :
  In re tag_patterns -> ~ In 91%N pre ->
  forall b s, s <> [] ->
    exec_loop re b (pre ++ s) 0 = exec_loop re (rev pre ++ b) s 0.
Proof.
  intros Hin. induction pre as [|x pre IH]; intros Hfree b s Hs; [reflexivity|].
  cbn [app exec_loop rev]. rewrite tag_patterns_no_match; [|assumption|].
  - rewrite IH; [now rewrite <- app_assoc | | assumption].
    intros H. apply Hfree. now right.
  - intros ->. apply Hfree. now left.
Qed.

Lemma exec_all_free (re : regex) (s : jsstring) :
  In re tag_patterns -> ~ In 91%N s -> exec_all re s = [].
Proof.
  intros Hin. unfold exec_all. generalize (@nil N).
  induction s as [|x s IH]; intros b Hfree; cbn [exec_loop].
  - now rewrite tag_patterns_no_match_nil.
  - rewrite tag_patterns_no_match; [|assumption|].
    + apply IH. intros H. apply Hfree. now right.
    + intros ->. apply Hfree. now left.
Qed.

Lemma remove_loop_free_prefix (re : regex) (pre : jsstring) :
  In re tag_patterns -> ~ In 91%N pre ->
  forall b s, remove_loop re b (pre ++ s) 0 = pre ++ remove_loop re (rev pre ++ b) s 0.
Proof.
  intros Hin. induction pre as [|x pre IH]; intros Hfree b s; [reflexivity|].
  cbn [app remove_loop rev]. rewrite tag_patterns_no_match; [|assumption|].
  - rewrite IH; [now rewrite <- app_assoc|].
    intros H. apply Hfree. now right.
  - intros ->. apply Hfree. now left.
Qed.

Lemma remove_all_free (re : regex) (s : jsstring) :
  In re tag_patterns -> ~ In 91%N s -> remove_all re s = s.
Proof.
  intros Hin Hfree. unfold remove_all.
  pose proof (@remove_loop_free_prefix re s Hin Hfree [] []) as H.
  rewrite app_nil_r in H. rewrite H. cbn [remove_loop]. apply app_nil_r.
Qed.

Lemma merge_nil (forced : list FillIntent) :
  NoDup (List.map field forced) ->
  Service.merge [] forced = List.map forced_action forced.
Proof.
  intros H. rewrite merge_eq by assumption. cbn [app]. f_equal.
  apply forallb_filter_id. apply forallb_forall. reflexivity.
Qed.

(** X1: a model output without opening bracket passes through the newer
    service untouched: the text is the trimmed output (or the confirmation
    when fills were forced) and the actions are the forced fills alone. *)
Theorem plain_output_passes_through (P : Platform) (userMessage rawText : jsstring) :
  ~ In 91%N rawText ->
  Service.respond P userMessage rawText =
  mkResult
    (match Service.forcedFills userMessage with
     | [] => trim rawText
     | _ :: _ => Service.confirmation (Service.forcedFills userMessage)
     end)
    (List.map forced_action (Service.forcedFills userMessage)).
Proof.
  intros Hfree. unfold Service.respond, Service.modelActions, Service.cleanText.
  rewrite !exec_all_free, remove_all_free; try assumption;
    try (unfold tag_patterns; cbn [In]; tauto).
  cbn [fold_left]. rewrite merge_nil by apply forcedFills_NoDup. reflexivity.
Qed.

Lemma plain_output_passes_through_witness :
  Service.respond Reference.platform (lit "fill name as Ved") (lit "I cannot do that.") =
  mkResult
    (match Service.forcedFills (lit "fill name as Ved") with
     | [] => trim (lit "I cannot do that.")
     | _ :: _ => Service.confirmation (Service.forcedFills (lit "fill name as Ved"))
     end)
    (List.map forced_action (Service.forcedFills (lit "fill name as Ved"))).
Proof.
  apply (@plain_output_passes_through Reference.platform (lit "fill name as Ved")
           (lit "I cannot do that.")).
  apply not_In_existsb. vm_compute. reflexivity.
Defined.

(** ** Well-formed tags are stripped, and lost by the older service *)

Lemma well_tagged_plain_free (raw plain : jsstring) :
  well_tagged raw plain -> ~ In 91%N plain.
Proof.
  induction 1 as [|x raw plain Hx _ IH|body raw plain _ _ _ IH]; [intros [] | | exact IH].
  intros [E | H]; [congruence | now apply IH].
Qed.

Lemma well_tagged_stripped (raw plain : jsstring) :
  well_tagged raw plain -> forall b, remove_loop tagRe b raw 0 = plain.
Proof.
  induction 1 as [|x raw plain Hx _ IH|body raw plain Hne F _ IH]; intros b.
  - reflexivity.
  - cbn [remove_loop]. rewrite tag_patterns_no_match; [|now left|assumption].
    now rewrite IH.
  - destruct body as [|y run]; [now elim Hne|].
    pose proof (@match_at_tagRe b y run raw F) as M.
    replace (lit "[ACTION:" ++ (y :: run) ++ lit "]" ++ raw)
      with (91%N :: (lit "ACTION:" ++ (y :: run) ++ lit "]") ++ raw) in *
      by (rewrite <- !app_assoc; reflexivity).
    cbn [remove_loop]. rewrite M.
    change (length (lit "[ACTION:" ++ (y :: run) ++ lit "]"))
      with (S (length (lit "ACTION:" ++ (y :: run) ++ lit "]"))).
    cbv beta iota. rewrite remove_loop_skip. apply IH.
Qed.

(** X2: on a model output whose tags are well formed, both services show the
    text without the tags; the older service, which strips the tags before
    it scans for them, returns no action at all. *)
Theorem well_tagged_output (rawText plain : jsstring) :
  well_tagged rawText plain ->
  Service.cleanText rawText = trim plain /\
  GeminiService.respond rawText = mkResult (trim plain) [].
Proof.
  intros H. pose proof (well_tagged_plain_free H) as Hfree.
  assert (E : remove_all tagRe rawText = plain) by (now apply well_tagged_stripped).
  split; [unfold Service.cleanText; now rewrite E|].
  unfold GeminiService.respond, GeminiService.scan. rewrite E.
  rewrite !exec_all_free
    by (first [assumption | unfold tag_patterns; cbn [In]; tauto]).
  reflexivity.
Qed.

Lemma well_tagged_output_witness :
  Service.cleanText (lit "Go [ACTION:scroll_to_section:projects] now") = trim (lit "Go  now") /\
  GeminiService.respond (lit "Go [ACTION:scroll_to_section:projects] now") =
  mkResult (trim (lit "Go  now")) [].
Proof.
  apply (@well_tagged_output (lit "Go [ACTION:scroll_to_section:projects] now")
           (lit "Go  now")).
  do 3 (apply wt_char; [discriminate|]).
  apply (@wt_tag (lit "scroll_to_section:projects") (lit " now") (lit " now"));
    [discriminate | reflexivity |].
  do 4 (apply wt_char; [discriminate|]). apply wt_nil.
Defined.

(** ** What the newer service returns is valid and ordered *)

Lemma In_fill_emits_valid (P : Platform) (a : Service.action) (payload : jsstring) :
  In a (fill_emits P payload) -> valid_action a /\ is_fill a = true.
Proof.
  unfold fill_emits, Service.fill_try.
  destruct (JSON_parse P payload) as [obj|]; [|contradiction].
  destruct (Service.string_prop P obj "field") as [f0|]; [|contradiction].
  destruct (Service.string_prop P obj "selector") as [sel|]; [|contradiction].
  destruct sel as [|x sel]; cbn [is_empty negb].
  - destruct (negb (is_empty (toLowerCase f0))); cbn [andb]; [|contradiction].
    destruct (set_has allowedFields (toLowerCase f0)) eqn:E; [|contradiction].
    intros [<- | []]. split; [|reflexivity]. now apply set_has_In.
  - intros [<- | []]. split; [discriminate | reflexivity].
Qed.

Lemma forcedFills_allowed (userMessage : jsstring) (f : FillIntent) :
  In f (Service.forcedFills userMessage) -> In (field f) allowedFields.
Proof.
  unfold Service.forcedFills. intros H. apply filter_In in H.
  destruct H as [_ H]. now apply set_has_In.
Qed.

(** X3: every action the newer service returns has passed its allow-list: a
    section, a direction or a field of the lists, or a non-empty selector. *)
Theorem returned_actions_valid (P : Platform) (userMessage rawText : jsstring)
        (a : Service.action) :
  In a (actions (Service.respond P userMessage rawText)) -> valid_action a.
Proof.
  rewrite respond_actions, modelActions_eq. intros Hin.
  repeat (apply in_app_or in Hin; destruct Hin as [Hin | Hin]).
  - apply in_flat_map in Hin. destruct Hin as [m [_ Ha]].
    apply In_section_emits in Ha. destruct Ha as [-> Ha]. now apply set_has_In.
  - apply in_flat_map in Hin. destruct Hin as [m [_ Ha]].
    apply In_page_emits in Ha. destruct Ha as [-> Ha]. now apply set_has_In.
  - apply in_flat_map in Hin. destruct Hin as [p [_ Ha]].
    now apply In_fill_emits_valid in Ha.
  - apply in_map_iff in Hin. destruct Hin as [f [<- Hf]].
    apply filter_In in Hf. destruct Hf as [Hf _]. now apply forcedFills_allowed in Hf.
Qed.

Lemma returned_actions_valid_witness :
  valid_action (Service.ScrollToSection (lit "projects")).
Proof.
  apply (@returned_actions_valid Reference.platform (lit "hello")
           (lit "See [ACTION:scroll_to_section:Projects] and [ACTION:scroll_to_section:nowhere]")
           (Service.ScrollToSection (lit "projects"))).
  vm_compute. left. reflexivity.
Defined.

(** X4: the actions come in the order of the three scans, not of the text:
    all section scrolls, then all page scrolls, then all fills (those of the
    model before the forced ones). *)
Theorem returned_actions_ordered (P : Platform) (userMessage rawText : jsstring) :
  exists sections pages fills,
    actions (Service.respond P userMessage rawText) = sections ++ pages ++ fills /\
    forallb is_section sections = true /\
    forallb is_page pages = true /\
    forallb is_fill fills = true.
Proof.
  rewrite respond_actions, modelActions_eq.
  exists (flat_map section_emits (exec_all Service.sectionRe rawText)),
         (flat_map page_emits (exec_all Service.pageRe rawText)).
  eexists. split; [now rewrite <- !app_assoc|].
  split; [|split]; apply forallb_forall; intros a Hin.
  - apply in_flat_map in Hin. destruct Hin as [m [_ Ha]].
    apply In_section_emits in Ha. now destruct Ha as [-> _].
  - apply in_flat_map in Hin. destruct Hin as [m [_ Ha]].
    apply In_page_emits in Ha. now destruct Ha as [-> _].
  - apply in_app_or in Hin. destruct Hin as [Hin | Hin].
    + apply in_flat_map in Hin. destruct Hin as [p [_ Ha]].
      now apply In_fill_emits_valid in Ha.
    + apply in_map_iff in Hin. now destruct Hin as [f [<- _]].
Qed.

(** ** The values of the extractor *)

Lemma match_at_trailSep_all (b : list N) (x : N) (run : jsstring) :
  forallb is_trailing (x :: run) = true ->
  match_at trailSepRe b (x :: run) = Some (length (x :: run), []).
Proof.
  intros F. unfold match_at, trailSepRe. cbn [rmatch].
  pose proof (@rmatch_Plus_full (nat * captures) is_trailing
                (fun st' => rmatch Eol st'
                   (fun st'0 => Some (length (x :: run) - length (rest st'0), caps st'0)))
                (length (x :: run), []) x run [] b [] I F) as H.
  rewrite app_nil_r in H. apply H. cbn [rmatch rest caps length].
  now rewrite ?Nat.sub_0_r.
Qed.

Lemma match_at_trailSep_sound (b : list N) (s : jsstring) (len : nat) (c : captures) :
  match_at trailSepRe b s = Some (len, c) -> forallb is_trailing s = true.
Proof.
  intros M. apply match_at_sound in M. destruct M as [st' [Hm _]].
  unfold trailSepRe in Hm.
  inversion Hm as [ | |? ? ? st1 ? H1 H2| | | | | | | | ]; subst; clear Hm.
  inv H2. apply matches_Plus in H1. destruct H1 as [x [run [F [E _]]]].
  cbn [rest] in E. match goal with K : rest st' = [] |- _ => rewrite K, app_nil_r in E end.
  subst s. exact F.
Qed.

(** [replace(/[,\s]+$/, "")] cuts the longest run of commas and white space
    the string ends with. *)
Lemma remove_trailing (s : jsstring) :
  forall b,
    exists dropped,
      s = remove_first_from trailSepRe b s ++ dropped /\
      forallb is_trailing dropped = true /\
      (remove_first_from trailSepRe b s = [] \/
       is_trailing (last (remove_first_from trailSepRe b s) 0%N) = false).
Proof.
  induction s as [|x s IH]; intros b.
  - exists []. cbn. auto.
  - cbn [remove_first_from].
    destruct (forallb is_trailing (x :: s)) eqn:F.
    + rewrite (match_at_trailSep_all b x s F).
      exists (x :: s). rewrite skipn_all. auto.
    + destruct (match_at trailSepRe b (x :: s)) as [[len c]|] eqn:M.
      { apply match_at_trailSep_sound in M. congruence. }
      destruct (IH (x :: b)) as [dropped [E [Fd Hl]]].
      exists dropped. split; [cbn [app]; now rewrite <- E|]. split; [assumption|].
      right. destruct (remove_first_from trailSepRe (x :: b) s) as [|y kept] eqn:K.
      * cbn [app] in E. subst s. cbn [forallb] in F. rewrite Fd, andb_true_r in F.
        exact F.
      * destruct Hl as [Hl | Hl]; [discriminate | exact Hl].
Qed.

Lemma star_greedy_longest (A : Type) (k : mstate -> option A) (c : captures) :
  (forall st, k st <> None) ->
  forall s b, exists b', star_greedy is_space k b s c = k (MState b' (trimStart s) c).
Proof.
  intros Hk. induction s as [|x s IH]; intros b; cbn [star_greedy trimStart].
  - now exists b.
  - destruct (is_space x).
    + destruct (IH (x :: b)) as [b' E]. exists b'. rewrite E.
      destruct (k (MState b' (trimStart s) c)) eqn:K; [reflexivity | now elim (Hk _ K)].
    + now exists b.
Qed.

Lemma trimStart_suffix (s : jsstring) :
  exists w, s = w ++ trimStart s /\ forallb is_space w = true.
Proof.
  induction s as [|x s [w [E F]]]; [now exists []|].
  cbn [trimStart]. destruct (is_space x) eqn:Hx.
  - exists (x :: w). cbn. rewrite Hx, F. split; [now rewrite <- E | reflexivity].
  - now exists [].
Qed.

Lemma skipn_suffix (w s : jsstring) : skipn (length (w ++ s) - length s) (w ++ s) = s.
Proof.
  rewrite length_app. replace (length w + length s - length s) with (length w) by lia.
  rewrite skipn_app, skipn_all, Nat.sub_diag. reflexivity.
Qed.

(** [replace(/^[,:-]\s*/, "")] cuts one leading separator and all the white
    space after it. *)
Lemma remove_leading (v : jsstring) :
  remove_first leadSepRe v =
  match v with
  | x :: s => if one_of [44; 58; 45]%N x then trimStart s else v
  | [] => []
  end.
Proof.
  destruct v as [|x s]; [reflexivity|].
  unfold remove_first. cbn [remove_first_from].
  destruct (one_of [44; 58; 45]%N x) eqn:Hx.
  - unfold match_at, leadSepRe. cbn [rmatch before rest caps]. rewrite Hx.
    destruct (@star_greedy_longest (nat * captures)
                (fun st' => Some (length (x :: s) - length (rest st'), caps st')) []
                ltac:(discriminate) s [x]) as [b' E].
    rewrite E. cbn [rest caps]. clear E.
    destruct (trimStart_suffix s) as [w [Es _]].
    remember (trimStart s) as ts eqn:Hts. clear Hts. subst s.
    change (x :: w ++ ts) with ((x :: w) ++ ts).
    apply skipn_suffix.
  - replace (match_at leadSepRe [] (x :: s)) with (@None (nat * captures))
      by (unfold match_at, leadSepRe; cbn [rmatch before rest caps]; now rewrite Hx).
    f_equal. apply remove_first_none. intros p q E.
    unfold match_at, leadSepRe. cbn [rmatch before].
    destruct (rev p ++ [x]) eqn:K; [|reflexivity].
    destruct (rev p); discriminate.
Qed.

Lemma trim_prefix (s : jsstring) : exists w, trimStart s = trim s ++ w.
Proof.
  unfold trim, trimEnd.
  destruct (trimStart_suffix (rev (trimStart s))) as [w [E _]].
  exists (rev w). rewrite <- rev_app_distr, <- E. now rewrite rev_involutive.
Qed.

Lemma trim_head (s : jsstring) : trim s <> [] -> is_space (hd 0%N (trim s)) = false.
Proof.
  intros Hne. destruct (trim_prefix s) as [w E].
  destruct (trim s) as [|x v] eqn:K; [now elim Hne|].
  cbn [hd]. cbn [app] in E. now apply trimStart_head in E.
Qed.

Lemma trimStart_hd (s : jsstring) : trimStart s <> [] -> is_space (hd 0%N (trimStart s)) = false.
Proof.
  intros Hne. destruct (trimStart s) as [|x v] eqn:K; [now elim Hne|].
  now apply trimStart_head in K.
Qed.

(** Whatever the span, the value is empty or clean. *)
Lemma clean_value_clean (span : jsstring) :
  clean_value span = [] \/ clean (clean_value span).
Proof.
  unfold clean_value.
  set (v1 := remove_first leadSepRe (trim span)). unfold remove_first.
  assert (H1 : v1 = [] \/ is_space (hd 0%N v1) = false).
  { unfold v1. rewrite remove_leading.
    destruct (trim span) as [|x s] eqn:K; [now left|].
    destruct (one_of [44; 58; 45]%N x).
    - destruct (trimStart s) eqn:T; [now left|]. right. rewrite <- T.
      apply trimStart_hd. congruence.
    - right. rewrite <- K. apply trim_head. congruence. }
  destruct (remove_trailing v1 []) as [dropped [E [_ Hl]]].
  destruct (remove_first_from trailSepRe [] v1) as [|y kept] eqn:K; [now left|].
  right. split; [discriminate|]. split.
  - destruct H1 as [H1 | H1]; [rewrite H1 in E; discriminate|].
    rewrite E in H1. exact H1.
  - destruct Hl as [Hl | Hl]; [discriminate | exact Hl].
Qed.

Lemma collect_values (t : jsstring) (hits : list hit) (x : FillIntent) :
  In x (collect t hits) -> clean (value x).
Proof.
  induction hits as [|h next IH]; cbn [collect]; [contradiction|].
  destruct (is_empty (clean_value (span_of t h next))) eqn:E; [exact IH|].
  intros [<- | H]; [|now apply IH]. cbn [value].
  destruct (clean_value_clean (span_of t h next)) as [K | K]; [|exact K].
  rewrite K in E. discriminate.
Qed.

Lemma last_value_In (f v : jsstring) (out : list FillIntent) :
  last_value f out = Some v -> exists x, In x out /\ field x = f /\ value x = v.
Proof.
  induction out as [|y out IH]; cbn [last_value]; [discriminate|].
  destruct (last_value f out) as [w|] eqn:L.
  - intros H. inversion H; subst. destruct (IH eq_refl) as [x [Hx K]].
    exists x. split; [now right | exact K].
  - destruct (jsstring_eqb (field y) f) eqn:E; [|discriminate].
    intros H. inversion H; subst. apply jsstring_eqb_eq in E.
    exists y. split; [now left | now split].
Qed.

(** X5: every intent the extractor returns names an allow-listed field and
    carries a value that is not empty, has no white space at either end and
    no comma at its end. *)
Theorem extracted_intents_clean (text : jsval) (x : FillIntent) :
  In x (parseFillFromUser text) ->
  In (field x) allowedFields /\ clean (value x).
Proof.
  intros H. split.
  - apply set_has_In. eapply parseFillFromUser_allowed; eassumption.
  - destruct x as [f v]. cbn [value].
    rewrite parseFillFromUser_eq, In_entries, dedup_fold in H.
    rewrite fold_set_field_values in H by constructor.
    destruct H as [H | [_ []]]. apply last_value_In in H.
    destruct H as [y [Hy [_ <-]]]. eapply collect_values; eassumption.
Qed.

Lemma extracted_intents_clean_witness :
  In (field (mkFill (lit "name") (lit "Bob"))) allowedFields /\
  clean (value (mkFill (lit "name") (lit "Bob"))).
Proof.
  apply (@extracted_intents_clean (VStr (lit "  FILL Name Field = , Bob ,, "))
           (mkFill (lit "name") (lit "Bob"))).
  vm_compute. left. reflexivity.
Defined.

(** ** A text that names no field *)

Lemma starts_with_app (p s : jsstring) : starts_with p (p ++ s) = true.
Proof.
  induction p as [|x p IH]; [reflexivity|]. cbn. now rewrite N.eqb_refl, IH.
Qed.

Lemma includes_app (a p s : jsstring) : includes (a ++ p ++ s) p = true.
Proof.
  induction a as [|x a IH].
  - cbn [app]. destruct (p ++ s) eqn:E; cbn [includes]; rewrite <- ?E;
      now rewrite starts_with_app.
  - cbn [app includes]. rewrite IH. apply orb_true_r.
Qed.

Lemma trigger_reads_field (b : list N) (s : jsstring) (st' : mstate) :
  matches fillTriggerRe (MState b s []) st' ->
  exists a u r, s = a ++ u ++ r /\ In (toLowerCase u) allowedFields.
Proof.
  unfold fillTriggerRe. intros H.
  inversion H as [ | |? ? ? st1 ? H1 H2| | | | | | | | ]; subst; clear H.
  inv H1.
  inversion H2 as [ | |? ? ? st2 ? H3 H4| | | | | | | | ]; subst; clear H2.
  apply matches_consumes in H3. destruct H3 as [w1 [E1 _]].
  inversion H4 as [ | |? ? ? st3 ? H5 H6| | | | | | | | ]; subst; clear H4.
  apply matches_consumes in H5. destruct H5 as [w2 [E2 _]].
  inversion H6 as [ | |? ? ? st4 ? H7 H8| | | | | | | | ]; subst; clear H6.
  inversion H7 as [ | | | | | | | | | |? ? ? st5 H9]; subst; clear H7.
  assert (K : In (toLowerCase (consumed st3 st5)) allowedFields).
  { cbn [alts] in H9.
    inv H9; [|match goal with K : matches (Alt _ _) _ _ |- _ => inv K end;
              [|match goal with K : matches (Alt _ _) _ _ |- _ => inv K end]];
    match goal with K : matches (LitCI _) _ _ |- _ =>
      apply matches_LitCI in K; destruct K as [K1 _] end;
    rewrite K1; vm_compute; tauto. }
  apply matches_consumes in H9. destruct H9 as [u [E3 _]].
  destruct st3 as [b3 s3 c3], st5 as [b5 s5 c5]. cbn [rest] in *. subst s3.
  rewrite consumed_app in K.
  exists (w1 ++ w2), u, s5. split; [|exact K].
  rewrite E1, E2. now rewrite <- app_assoc.
Qed.

Lemma scanned_infix (s : jsstring) : exists w0 w1, s = w0 ++ scanned (VStr s) ++ w1.
Proof.
  assert (E : scanned (VStr s) = trim s).
  { unfold scanned. destruct s; reflexivity. }
  rewrite E. destruct (trimStart_suffix s) as [w0 [E0 _]].
  destruct (trim_prefix s) as [w1 E1]. exists w0, w1. now rewrite <- E1.
Qed.

(** X6: a user text in which none of the words name, email, message, search
    occurs, in any letter case, yields no intent. *)
Theorem no_field_word_no_intent (s : jsstring) :
  (forall w, In w allowedFields -> includes (toLowerCase s) w = false) ->
  parseFillFromUser (VStr s) = [].
Proof.
  intros Hno. rewrite parseFillFromUser_eq.
  destruct (find_hits (scanned (VStr s))) as [|h tl] eqn:Eh; [reflexivity|].
  exfalso. assert (Hin : In h (find_hits (scanned (VStr s)))) by (rewrite Eh; now left).
  unfold find_hits, exec_all in Hin. apply in_map_iff in Hin.
  destruct Hin as [m [_ Hm]]. apply exec_loop_occurrence in Hm.
  destruct Hm as [p [q [Et [M _]]]]. apply match_at_sound in M.
  destruct M as [st' [Hmt _]]. apply trigger_reads_field in Hmt.
  destruct Hmt as [a [u [r [Eq Hu]]]].
  destruct (scanned_infix s) as [w0 [w1 Es]].
  specialize (Hno _ Hu).
  assert (K : includes (toLowerCase s) (toLowerCase u) = true).
  { rewrite Es, Et, Eq. unfold toLowerCase. rewrite !map_app.
    replace (List.map lower1 w0 ++
             (List.map lower1 p ++ List.map lower1 a ++ List.map lower1 u ++ List.map lower1 r) ++
             List.map lower1 w1)
      with ((List.map lower1 w0 ++ List.map lower1 p ++ List.map lower1 a) ++
            List.map lower1 u ++ (List.map lower1 r ++ List.map lower1 w1))
      by (now rewrite <- !app_assoc).
    apply includes_app. }
  congruence.
Qed.

Lemma no_field_word_no_intent_witness :
  parseFillFromUser (VStr (lit "Please SET the theme to dark, add it now")) = [].
Proof.
  apply (@no_field_word_no_intent (lit "Please SET the theme to dark, add it now")).
  intros w [<- | [<- | [<- | [<- | []]]]]; vm_compute; reflexivity.
Defined.

(** ** The letter case of the user text *)

Ltac n_bools :=
  repeat match goal with
    | |- context [N.eqb ?a ?b] =>
        first [ replace (N.eqb a b) with false by (symmetry; apply N.eqb_neq; lia)
              | replace (N.eqb a b) with true by (symmetry; apply N.eqb_eq; lia) ]
    | |- context [N.leb ?a ?b] =>
        first [ replace (N.leb a b) with true by (symmetry; apply N.leb_le; lia)
              | replace (N.leb a b) with false by (symmetry; apply N.leb_gt; lia) ]
    end;
  reflexivity.

Lemma lower1_cases (x : N) :
  lower1 x = x \/ ((65 <= x)%N /\ (x <= 90)%N /\ lower1 x = (x + 32)%N).
Proof.
  unfold lower1, is_upper, between.
  destruct (N.leb_spec 65 x); destruct (N.leb_spec x 90); cbn [andb]; auto.
Qed.

Lemma lower1_idem (x : N) : lower1 (lower1 x) = lower1 x.
Proof.
  destruct (lower1_cases x) as [E | [H1 [H2 E]]]; [now rewrite E|].
  rewrite E. unfold lower1, is_upper, between. n_bools.
Qed.

Lemma toLowerCase_idem (s : jsstring) : toLowerCase (toLowerCase s) = toLowerCase s.
Proof.
  unfold toLowerCase. rewrite map_map. apply map_ext. apply lower1_idem.
Qed.

Lemma is_space_lower (x : N) : is_space (lower1 x) = is_space x.
Proof.
  destruct (lower1_cases x) as [E | [H1 [H2 E]]]; [now rewrite E|].
  rewrite E. unfold is_space, one_of, between, existsb. n_bools.
Qed.

Lemma is_word_lower (x : N) : is_word (lower1 x) = is_word x.
Proof.
  destruct (lower1_cases x) as [E | [H1 [H2 E]]]; [now rewrite E|].
  rewrite E. unfold is_word, is_upper, is_lower, is_digit, between. n_bools.
Qed.

Lemma is_sep_lower (x : N) : one_of [44; 58; 45]%N (lower1 x) = one_of [44; 58; 45]%N x.
Proof.
  destruct (lower1_cases x) as [E | [H1 [H2 E]]]; [now rewrite E|].
  rewrite E. unfold one_of, existsb. n_bools.
Qed.

Lemma is_char_ci_lower (c x : N) : is_char_ci c (lower1 x) = is_char_ci c x.
Proof. unfold is_char_ci. now rewrite lower1_idem. Qed.

Lemma case_blind_seq_ci (w : jsstring) : case_blind (seq_of is_char_ci w).
Proof.
  induction w as [|c w IH]; cbn; [exact I|]. split; [apply is_char_ci_lower | exact IH].
Qed.

Lemma case_blind_trigger : case_blind fillTriggerRe.
Proof.
  unfold fillTriggerRe, Plus, Opt, LitCI. cbn [case_blind alts].
  repeat split; try apply is_space_lower; exact (is_char_ci_lower _).
Qed.

Lemma case_blind_leadSep : case_blind leadSepRe.
Proof.
  unfold leadSepRe. cbn [case_blind]. repeat split; [apply is_sep_lower | apply is_space_lower].
Qed.

Lemma case_blind_trailSep : case_blind trailSepRe.
Proof.
  unfold trailSepRe, Plus. cbn [case_blind].
  assert (K : forall x, (N.eqb (lower1 x) 44 || is_space (lower1 x))%bool =
                        (N.eqb x 44 || is_space x)%bool).
  { intros x. rewrite is_space_lower. f_equal.
    destruct (lower1_cases x) as [E | [H1 [H2 E]]]; [now rewrite E|].
    rewrite E. n_bools. }
  repeat split; exact K.
Qed.

Lemma star_greedy_lower (A B : Type) (g : A -> B) (p : N -> bool)
      (k1 : mstate -> option A) (k2 : mstate -> option B) :
  (forall x, p (lower1 x) = p x) ->
  (forall st, k2 (lower_state st) = option_map g (k1 st)) ->
  forall s b c,
    star_greedy p k2 (toLowerCase b) (toLowerCase s) (lower_caps c) =
    option_map g (star_greedy p k1 b s c).
Proof.
  intros Hp Hk. unfold toLowerCase.
  induction s as [|x s IH]; intros b c; cbn [List.map star_greedy].
  - apply (Hk (MState b [] c)).
  - rewrite Hp. destruct (p x); [|apply (Hk (MState b (x :: s) c))].
    pose proof (IH (x :: b) c) as E. cbn [List.map] in E. rewrite E.
    destruct (star_greedy p k1 (x :: b) s c); [reflexivity|].
    apply (Hk (MState b (x :: s) c)).
Qed.

Lemma star_lazy_lower (A B : Type) (g : A -> B) (p : N -> bool)
      (k1 : mstate -> option A) (k2 : mstate -> option B) :
  (forall x, p (lower1 x) = p x) ->
  (forall st, k2 (lower_state st) = option_map g (k1 st)) ->
  forall s b c,
    star_lazy p k2 (toLowerCase b) (toLowerCase s) (lower_caps c) =
    option_map g (star_lazy p k1 b s c).
Proof.
  intros Hp Hk. unfold toLowerCase.
  induction s as [|x s IH]; intros b c; cbn [List.map star_lazy].
  - pose proof (Hk (MState b [] c)) as K. unfold lower_state, toLowerCase in K.
    cbn [before rest caps List.map] in K. rewrite K. now destruct (k1 (MState b [] c)).
  - pose proof (Hk (MState b (x :: s) c)) as K. unfold lower_state, toLowerCase in K.
    cbn [before rest caps List.map] in K. rewrite K.
    destruct (k1 (MState b (x :: s) c)); [reflexivity|]. cbn [option_map].
    rewrite Hp. destruct (p x); [|reflexivity].
    pose proof (IH (x :: b) c) as E. cbn [List.map] in E. exact E.
Qed.

Lemma word_at_lower (l : list N) : word_at (toLowerCase l) = word_at l.
Proof. destruct l; [reflexivity | apply is_word_lower]. Qed.

Lemma consumed_lower (st st' : mstate) :
  consumed (lower_state st) (lower_state st') = toLowerCase (consumed st st').
Proof.
  unfold consumed, lower_state, toLowerCase. cbn [rest].
  now rewrite !length_map, firstn_map.
Qed.

(** On a text in lower case a case-blind pattern matches in the same places,
    and captures the same text in lower case. *)
Lemma rmatch_lower (A B : Type) (g : A -> B) (r : regex) :
  case_blind r ->
  forall (k1 : mstate -> option A) (k2 : mstate -> option B),
    (forall st, k2 (lower_state st) = option_map g (k1 st)) ->
    forall st, rmatch r (lower_state st) k2 = option_map g (rmatch r st k1).
Proof.
  induction r as [ |p|r1 IH1 r2 IH2|r1 IH1 r2 IH2|gr p| | | |n r IH];
    intros Hb k1 k2 Hk st; cbn [rmatch case_blind] in *.
  - apply Hk.
  - destruct st as [b [|x s] c]; cbn; [reflexivity|].
    rewrite Hb. destruct (p x); [|reflexivity]. apply (Hk (MState (x :: b) s c)).
  - destruct Hb as [B1 B2]. apply IH1; [assumption|]. intros st1. now apply IH2.
  - destruct Hb as [B1 B2]. rewrite (IH1 B1 k1 k2 Hk), (IH2 B2 k1 k2 Hk).
    now destruct (rmatch r1 st k1).
  - destruct st as [b s c]. destruct gr; cbn [lower_state before rest caps].
    + now apply star_greedy_lower.
    + now apply star_lazy_lower.
  - destruct st as [b s c]; cbn [lower_state before rest caps].
    rewrite !word_at_lower.
    destruct (xorb (word_at b) (word_at s)); [apply (Hk (MState b s c)) | reflexivity].
  - destruct st as [[|x b] s c]; cbn; [apply (Hk (MState [] s c)) | reflexivity].
  - destruct st as [b [|x s] c]; cbn; [apply (Hk (MState b [] c)) | reflexivity].
  - apply IH; [assumption|]. intros st1.
    rewrite consumed_lower.
    apply (Hk (MState (before st1) (rest st1) ((n, consumed st st1) :: caps st1))).
Qed.

Lemma match_at_lower (re : regex) (b : list N) (s : jsstring) :
  case_blind re ->
  match_at re (toLowerCase b) (toLowerCase s) =
  option_map (fun r => (fst r, lower_caps (snd r))) (match_at re b s).
Proof.
  intros Hb. unfold match_at.
  apply (@rmatch_lower _ _ (fun r => (fst r, lower_caps (snd r))) re Hb
           (fun st' => Some (length s - length (rest st'), caps st'))
           (fun st' => Some (length (toLowerCase s) - length (rest st'), caps st'))
           ltac:(intros [b' s' c']; unfold lower_state, toLowerCase;
                 cbn [rest caps option_map fst snd]; now rewrite !length_map)
           (MState b s [])).
Qed.

Lemma exec_loop_lower (re : regex) :
  case_blind re ->
  forall s b skip,
    exec_loop re (toLowerCase b) (toLowerCase s) skip =
    List.map lower_hit (exec_loop re b s skip).
Proof.
  intros Hb. induction s as [|x s IH]; intros b skip.
  - cbn [toLowerCase List.map exec_loop]. destruct skip; [|reflexivity].
    pose proof (@match_at_lower re b [] Hb) as M. cbn [toLowerCase List.map] in M.
    rewrite M. destruct (match_at re b []) as [[len c]|]; [|reflexivity].
    cbn. unfold lower_hit, toLowerCase. cbn. now rewrite length_map.
  - pose proof (IH (x :: b)) as IH'. unfold toLowerCase in *.
    cbn [List.map exec_loop] in *. destruct skip as [|k]; [|apply IH'].
    pose proof (@match_at_lower re b (x :: s) Hb) as M.
    unfold toLowerCase in M. cbn [List.map] in M. rewrite M.
    destruct (match_at re b (x :: s)) as [[len c]|]; cbn [option_map fst snd List.map].
    + rewrite IH'. unfold lower_hit at 2. cbn [m_index m_end m_caps].
      now rewrite length_map.
    + apply IH'.
Qed.

Lemma get_cap_lower (n : nat) (c : captures) :
  get_cap n (lower_caps c) = option_map toLowerCase (get_cap n c).
Proof.
  unfold get_cap, lower_caps. induction c as [|[m w] c IH]; [reflexivity|].
  cbn [List.map find fst snd]. destruct (Nat.eqb m n); [reflexivity | exact IH].
Qed.

Lemma find_hits_lower (t : jsstring) : find_hits (toLowerCase t) = find_hits t.
Proof.
  unfold find_hits, exec_all.
  pose proof (@exec_loop_lower fillTriggerRe case_blind_trigger t [] 0) as E.
  cbn [toLowerCase List.map] in E. fold (toLowerCase t) in E. rewrite E, map_map.
  apply map_ext. intros m. unfold hit_of, lower_hit. cbn [m_caps m_index m_end].
  rewrite get_cap_lower. destruct (get_cap 1 (m_caps m)); cbn [option_map or_empty];
    [now rewrite toLowerCase_idem | reflexivity].
Qed.

Lemma trimStart_lower (s : jsstring) : trimStart (toLowerCase s) = toLowerCase (trimStart s).
Proof.
  unfold toLowerCase. induction s as [|x s IH]; [reflexivity|].
  cbn [List.map trimStart]. rewrite is_space_lower. now destruct (is_space x).
Qed.

Lemma trim_lower (s : jsstring) : trim (toLowerCase s) = toLowerCase (trim s).
Proof.
  unfold trim, trimEnd. rewrite trimStart_lower. unfold toLowerCase.
  rewrite <- map_rev. fold (toLowerCase (rev (trimStart s))).
  rewrite trimStart_lower. unfold toLowerCase. now rewrite map_rev.
Qed.

Lemma remove_first_from_lower (re : regex) :
  case_blind re ->
  forall s b,
    remove_first_from re (toLowerCase b) (toLowerCase s) =
    toLowerCase (remove_first_from re b s).
Proof.
  intros Hb. pose proof (fun b s => @match_at_lower re b s Hb) as M.
  unfold toLowerCase in *.
  induction s as [|x s IH]; intros b; specialize (M b); cbn [List.map remove_first_from].
  - specialize (M []). cbn [List.map] in M. rewrite M.
    destruct (match_at re b []) as [[len c]|]; cbn [option_map fst]; [|reflexivity].
    now rewrite !skipn_nil.
  - specialize (M (x :: s)). cbn [List.map] in M. rewrite M.
    destruct (match_at re b (x :: s)) as [[len c]|]; cbn [option_map fst].
    + change (lower1 x :: List.map lower1 s) with (List.map lower1 (x :: s)).
      now rewrite skipn_map.
    + cbn [List.map]. f_equal. apply (IH (x :: b)).
Qed.

Lemma clean_value_lower (span : jsstring) :
  clean_value (toLowerCase span) = toLowerCase (clean_value span).
Proof.
  unfold clean_value, remove_first. rewrite trim_lower.
  pose proof (@remove_first_from_lower leadSepRe case_blind_leadSep (trim span) []) as E1.
  change (toLowerCase []) with (@nil N) in E1. rewrite E1.
  apply (@remove_first_from_lower trailSepRe case_blind_trailSep _ []).
Qed.

Lemma span_of_lower (t : jsstring) (h : hit) (next : list hit) :
  span_of (toLowerCase t) h next = toLowerCase (span_of t h next).
Proof.
  unfold span_of, slice, toLowerCase. now rewrite length_map, skipn_map, firstn_map.
Qed.

Lemma is_empty_lower (v : jsstring) : is_empty (toLowerCase v) = is_empty v.
Proof. now destruct v. Qed.

Lemma collect_lower (t : jsstring) (hits : list hit) :
  collect (toLowerCase t) hits = List.map lower_value (collect t hits).
Proof.
  induction hits as [|h next IH]; [reflexivity|].
  cbn [collect]. rewrite span_of_lower, clean_value_lower, is_empty_lower, IH.
  now destruct (is_empty (clean_value (span_of t h next))).
Qed.

Lemma obj_set_lower (o : list (jsstring * jsstring)) (k v : jsstring) :
  obj_set (lower_values o) k (toLowerCase v) = lower_values (obj_set o k v).
Proof.
  unfold lower_values. induction o as [|[k' v'] o IH]; [reflexivity|].
  cbn [List.map obj_set fst snd]. destruct (jsstring_eqb k' k); [reflexivity|].
  cbn [List.map fst snd]. now rewrite IH.
Qed.

Lemma fold_set_field_lower (out : list FillIntent) :
  forall o,
    fold_left set_field (List.map lower_value out) (lower_values o) =
    lower_values (fold_left set_field out o).
Proof.
  induction out as [|x out IH]; intros o; [reflexivity|].
  cbn [List.map fold_left]. rewrite <- IH. f_equal.
  unfold set_field, lower_value. cbn [field value]. apply obj_set_lower.
Qed.

Lemma scanned_lower (s : jsstring) :
  scanned (VStr (toLowerCase s)) = toLowerCase (scanned (VStr s)).
Proof.
  unfold scanned. destruct s as [|x s]; [reflexivity|].
  cbn [truthy is_empty negb toLowerCase List.map String_of]. apply (trim_lower (x :: s)).
Qed.

(** X7: the extractor does not depend on the letter case of the text: on the
    text in lower case it finds the same fields in the same order, each with
    its value in lower case. *)
Theorem extractor_ignores_letter_case (s : jsstring) :
  parseFillFromUser (VStr (toLowerCase s)) =
  List.map lower_value (parseFillFromUser (VStr s)).
Proof.
  rewrite !parseFillFromUser_eq, scanned_lower, find_hits_lower, collect_lower.
  rewrite !dedup_fold.
  pose proof (fold_set_field_lower
                (collect (scanned (VStr s)) (find_hits (scanned (VStr s)))) []) as E.
  cbn [lower_values List.map] in E. rewrite E.
  unfold entries, lower_values, lower_value. rewrite !map_map. reflexivity.
Qed.

(** ** One request, one intent *)

Lemma rmatch_LitCI_self (A : Type) (w : jsstring) :
  forall (b : list N) (s : jsstring) (c : captures) (k : mstate -> option A),
    rmatch (seq_of is_char_ci w) (MState b (w ++ s) c) k = k (MState (rev w ++ b) s c).
Proof.
  induction w as [|x w IH]; intros b s c k; cbn [seq_of rmatch app rest before caps rev];
    [reflexivity|].
  unfold is_char_ci at 1. rewrite N.eqb_refl, IH, <- app_assoc. reflexivity.
Qed.

Lemma verbs_match (A : Type) (verb : jsstring) (b : list N) (s : jsstring) (c : captures)
      (k : mstate -> option A) :
  In verb verbs ->
  rmatch (alts [LitCI "fill"; LitCI "add"; LitCI "set"]) (MState b (verb ++ s) c) k =
  k (MState (rev verb ++ b) s c).
Proof.
  unfold verbs. intros [<- | [<- | [<- | []]]]; cbn [alts rmatch].
  - unfold LitCI at 1. rewrite rmatch_LitCI_self.
    destruct (k (MState (rev (lit "fill") ++ b) s c)); reflexivity.
  - change (rmatch (LitCI "fill") (MState b (lit "add" ++ s) c) k) with (@None A).
    unfold LitCI at 1. rewrite rmatch_LitCI_self.
    destruct (k (MState (rev (lit "add") ++ b) s c)); reflexivity.
  - change (rmatch (LitCI "fill") (MState b (lit "set" ++ s) c) k) with (@None A).
    change (rmatch (LitCI "add") (MState b (lit "set" ++ s) c) k) with (@None A).
    unfold LitCI. now rewrite rmatch_LitCI_self.
Qed.

Lemma fields_match (A : Type) (f : jsstring) (b : list N) (s : jsstring) (c : captures)
      (k : mstate -> option A) :
  In f allowedFields ->
  rmatch (Group 1 (alts [LitCI "name"; LitCI "email"; LitCI "message"; LitCI "search"]))
         (MState b (f ++ s) c) k =
  k (MState (rev f ++ b) s ((1, f) :: c)).
Proof.
  unfold allowedFields. intros [<- | [<- | [<- | [<- | []]]]]; cbn [alts rmatch].
  - unfold LitCI at 1. rewrite rmatch_LitCI_self. cbn [before rest caps].
    rewrite consumed_app.
    destruct (k (MState (rev (lit "name") ++ b) s ((1, lit "name") :: c))); reflexivity.
  - match goal with |- context [rmatch (LitCI "name") ?st ?k'] =>
      change (rmatch (LitCI "name") st k') with (@None A) end.
    unfold LitCI at 1. rewrite rmatch_LitCI_self. cbn [before rest caps].
    rewrite consumed_app.
    destruct (k (MState (rev (lit "email") ++ b) s ((1, lit "email") :: c))); reflexivity.
  - match goal with |- context [rmatch (LitCI "name") ?st ?k'] =>
      change (rmatch (LitCI "name") st k') with (@None A) end.
    match goal with |- context [rmatch (LitCI "email") ?st ?k'] =>
      change (rmatch (LitCI "email") st k') with (@None A) end.
    unfold LitCI at 1. rewrite rmatch_LitCI_self. cbn [before rest caps].
    rewrite consumed_app.
    destruct (k (MState (rev (lit "message") ++ b) s ((1, lit "message") :: c))); reflexivity.
  - match goal with |- context [rmatch (LitCI "name") ?st ?k'] =>
      change (rmatch (LitCI "name") st k') with (@None A) end.
    match goal with |- context [rmatch (LitCI "email") ?st ?k'] =>
      change (rmatch (LitCI "email") st k') with (@None A) end.
    match goal with |- context [rmatch (LitCI "message") ?st ?k'] =>
      change (rmatch (LitCI "message") st k') with (@None A) end.
    unfold LitCI. rewrite rmatch_LitCI_self. cbn [before rest caps].
    now rewrite consumed_app.
Qed.

Lemma connectors_match (A : Type) (conn : jsstring) (b : list N) (s : jsstring)
      (c : captures) (k : mstate -> option A) (a : A) :
  In conn connectors ->
  k (MState (rev conn ++ b) s c) = Some a ->
  rmatch (Opt (alts [LitCI "as"; LitCI "to"; LitCI "="])) (MState b (conn ++ s) c) k = Some a.
Proof.
  unfold connectors, Opt. intros [<- | [<- | [<- | []]]] K; cbn [alts rmatch].
  - unfold LitCI at 1. now rewrite rmatch_LitCI_self, K.
  - change (rmatch (LitCI "as") (MState b (lit "to" ++ s) c) k) with (@None A).
    unfold LitCI at 1. now rewrite rmatch_LitCI_self, K.
  - change (rmatch (LitCI "as") (MState b (lit "=" ++ s) c) k) with (@None A).
    change (rmatch (LitCI "to") (MState b (lit "=" ++ s) c) k) with (@None A).
    unfold LitCI. now rewrite rmatch_LitCI_self, K.
Qed.

Lemma no_field_word_here (A : Type) (conn : jsstring) (b : list N) (s : jsstring)
      (c : captures) (k : mstate -> option A) :
  In conn connectors ->
  rmatch (Opt (LitCI "field")) (MState b (conn ++ s) c) k = k (MState b (conn ++ s) c).
Proof.
  unfold connectors, Opt. intros [<- | [<- | [<- | []]]]; reflexivity.
Qed.

Lemma rmatch_Seq (A : Type) (r1 r2 : regex) (st : mstate) (k : mstate -> option A) :
  rmatch (Seq r1 r2) st k = rmatch r1 st (fun st' => rmatch r2 st' k).
Proof. reflexivity. Qed.

Lemma phrase_match (verb f conn : jsstring) (y : N) (V : jsstring) :
  In verb verbs -> In f allowedFields -> In conn connectors ->
  is_space y = false ->
  match_at fillTriggerRe [] (phrase verb f conn ++ y :: V) =
  Some (length (phrase verb f conn), [(1, f)]).
Proof.
  intros Hv Hf Hc Hy. unfold match_at, fillTriggerRe, phrase.
  replace ((verb ++ 32%N :: f ++ 32%N :: conn ++ [32%N]) ++ y :: V)
    with (verb ++ 32%N :: f ++ 32%N :: conn ++ 32%N :: y :: V)
    by (repeat (rewrite <- app_assoc; cbn [app]); reflexivity).
  set (text := verb ++ 32%N :: f ++ 32%N :: conn ++ 32%N :: y :: V).
  set (k0 := fun st' : mstate => Some (length text - length (rest st'), caps st')).
  assert (W : word_at text = true).
  { unfold text, verbs in *. destruct Hv as [<- | [<- | [<- | []]]]; reflexivity. }
  assert (Sf : stops is_space (f ++ 32%N :: conn ++ 32%N :: y :: V)).
  { unfold allowedFields in Hf. destruct Hf as [<- | [<- | [<- | [<- | []]]]]; reflexivity. }
  assert (Sc : stops is_space (conn ++ 32%N :: y :: V)).
  { unfold connectors in Hc. destruct Hc as [<- | [<- | [<- | []]]]; reflexivity. }
  rewrite rmatch_Seq. change (rmatch WordB ?st ?k) with
    (if xorb (word_at (before st)) (word_at (rest st)) then k st else None).
  cbn [before rest]. rewrite W. change (xorb (word_at []) true) with true. cbv iota beta.
  rewrite rmatch_Seq. unfold text at 1. rewrite verbs_match by assumption.
  rewrite rmatch_Seq.
  apply (@rmatch_Plus_full _ is_space _ _ 32%N [] _ _ _ Sf eq_refl).
  rewrite rmatch_Seq, fields_match by assumption.
  rewrite rmatch_Seq. change (rmatch (Star true ?p) ?st ?k) with
    (star_greedy p k (before st) (rest st) (caps st)).
  cbn [before rest caps].
  apply (@star_greedy_full _ is_space _ _ _ _ Sc [32%N] _ eq_refl).
  rewrite rmatch_Seq, no_field_word_here by assumption.
  rewrite rmatch_Seq. change (rmatch (Star true ?p) ?st ?k) with
    (star_greedy p k (before st) (rest st) (caps st)).
  cbn [before rest caps].
  apply (@star_greedy_full _ is_space _ _ _ _ Sc [] _ eq_refl).
  rewrite rmatch_Seq.
  apply connectors_match; [assumption|].
  change (rmatch (Star true ?p) ?st ?k) with
    (star_greedy p k (before st) (rest st) (caps st)).
  cbn [before rest caps].
  apply (@star_greedy_full _ is_space _ _ (y :: V) _ Hy [32%N] _ eq_refl).
  unfold k0. cbn [rest caps]. f_equal. f_equal.
  unfold text. list_len.
Qed.

Lemma exec_loop_skip (re : regex) (w : jsstring) :
  forall b s, exec_loop re b (w ++ s) (length w) = exec_loop re (rev w ++ b) s 0.
Proof.
  induction w as [|x w IH]; intros b s; [reflexivity|].
  cbn [app length rev]. rewrite <- app_assoc. cbn [app]. rewrite <- IH.
  destruct s; reflexivity.
Qed.

Lemma exec_loop_hit (re : regex) (b : list N) (w s : jsstring) (c : captures) :
  w <> [] ->
  match_at re b (w ++ s) = Some (length w, c) ->
  exec_loop re b (w ++ s) 0 =
  Hit (length b) (length b + length w) c :: exec_loop re (rev w ++ b) s 0.
Proof.
  intros Hw M. destruct w as [|x w]; [now elim Hw|].
  cbn [app exec_loop]. cbn [app] in M. rewrite M. f_equal.
  cbn [length rev]. rewrite Nat.sub_succ, Nat.sub_0_r, <- app_assoc.
  apply exec_loop_skip.
Qed.

Lemma exec_loop_no_field (V : jsstring) (b : list N) :
  (forall w, In w allowedFields -> includes (toLowerCase V) w = false) ->
  exec_loop fillTriggerRe b V 0 = [].
Proof.
  intros Hno. destruct (exec_loop fillTriggerRe b V 0) as [|m tl] eqn:Em; [reflexivity|].
  exfalso. assert (Hm : In m (exec_loop fillTriggerRe b V 0)) by (rewrite Em; now left).
  apply exec_loop_occurrence in Hm.
  destruct Hm as [p [q [Et [M _]]]]. apply match_at_sound in M.
  destruct M as [st' [Hmt _]]. apply trigger_reads_field in Hmt.
  destruct Hmt as [a [u [r [Eq Hu]]]]. specialize (Hno _ Hu).
  assert (K : includes (toLowerCase V) (toLowerCase u) = true).
  { rewrite Et, Eq. unfold toLowerCase. rewrite !map_app, app_assoc. apply includes_app. }
  congruence.
Qed.

Lemma trim_fixed (s : jsstring) :
  is_space (hd 0%N s) = false -> is_space (last s 0%N) = false -> trim s = s.
Proof.
  intros Hh Hl.
  assert (F : forall l, is_space (hd 0%N l) = false -> trimStart l = l).
  { intros [|x l] H; [reflexivity|]. cbn [hd] in H. cbn [trimStart]. now rewrite H. }
  unfold trim, trimEnd. rewrite (F s Hh), F; [apply rev_involutive|].
  rewrite <- (rev_involutive s) in Hl. now rewrite last_rev in Hl.
Qed.

Lemma slice_tail (a v : jsstring) : slice (a ++ v) (length a) (length (a ++ v)) = v.
Proof.
  unfold slice. rewrite length_app.
  replace (length a + length v - length a) with (length v) by lia.
  induction a as [|x a IH]; cbn [app length skipn]; [apply firstn_all | exact IH].
Qed.

Lemma allowedFields_lower (f : jsstring) : In f allowedFields -> toLowerCase f = f.
Proof.
  unfold allowedFields. intros [<- | [<- | [<- | [<- | []]]]]; reflexivity.
Qed.

Lemma phrase_hits (verb f conn V : jsstring) :
  In verb verbs -> In f allowedFields -> In conn connectors ->
  is_space (hd 0%N V) = false -> V <> [] ->
  (forall w, In w allowedFields -> includes (toLowerCase V) w = false) ->
  find_hits (phrase verb f conn ++ V) = [mkHit f 0 (length (phrase verb f conn))].
Proof.
  intros Hv Hf Hc Hy Hne Hno. destruct V as [|y V]; [now elim Hne|]. cbn [hd] in Hy.
  unfold find_hits, exec_all.
  rewrite (@exec_loop_hit fillTriggerRe [] (phrase verb f conn) (y :: V) [(1, f)]).
  - rewrite exec_loop_no_field by assumption.
    cbn [List.map length Nat.add]. unfold hit_of, get_cap.
    cbn [m_caps m_index m_end find fst snd Nat.eqb or_empty].
    now rewrite allowedFields_lower.
  - unfold phrase. now destruct verb.
  - now apply phrase_match.
Qed.

(** X8: a request made of one verb (fill, add, set), one field name, one
    connector (as, to, =) and a value, each followed by one space and in any
    letter case, yields exactly one intent: the field in lower case with the
    value as typed.  The value is clean, does not start with a separator and
    holds no field name. *)
Theorem one_request_one_intent (T V verb f conn : jsstring) :
  In verb verbs -> In f allowedFields -> In conn connectors ->
  toLowerCase T = phrase verb f conn ->
  clean V ->
  one_of [44; 58; 45]%N (hd 0%N V) = false ->
  (forall w, In w allowedFields -> includes (toLowerCase V) w = false) ->
  parseFillFromUser (VStr (T ++ V)) = [mkFill f V].
Proof.
  intros Hv Hf Hc ET [Hne [Hh Hl]] Hsep Hno.
  assert (Hlen : length T = length (phrase verb f conn)).
  { rewrite <- ET. unfold toLowerCase. now rewrite length_map. }
  assert (HT : is_space (hd 0%N (T ++ V)) = false).
  { destruct T as [|x T]; [unfold phrase in ET; now destruct verb|].
    cbn [app hd]. rewrite <- is_space_lower.
    unfold toLowerCase, phrase in ET. cbn [List.map] in ET.
    unfold verbs in Hv. destruct Hv as [<- | [<- | [<- | []]]];
      injection ET as -> _; reflexivity. }
  unfold is_trailing in Hl. apply orb_false_iff in Hl. destruct Hl as [Hcomma Hsp].
  assert (Etrim : trim (T ++ V) = T ++ V).
  { apply trim_fixed; [assumption|]. now rewrite last_app_nonempty. }
  assert (Es : scanned (VStr (T ++ V)) = T ++ V).
  { unfold scanned.
    replace (if truthy (VStr (T ++ V)) then VStr (T ++ V) else VStr [])
      with (VStr (T ++ V)) by (destruct (T ++ V); reflexivity).
    exact Etrim. }
  rewrite parseFillFromUser_eq, Es.
  assert (Eh : find_hits (T ++ V) = [mkHit f 0 (length T)]).
  { rewrite <- find_hits_lower, Hlen. unfold toLowerCase. rewrite map_app.
    fold (toLowerCase T) (toLowerCase V). rewrite ET.
    apply phrase_hits; try assumption.
    - destruct V as [|y V]; [now elim Hne|]. cbn [toLowerCase List.map hd] in *.
      now rewrite is_space_lower.
    - destruct V; [now elim Hne | discriminate].
    - intros w Hw. rewrite toLowerCase_idem. now apply Hno. }
  rewrite Eh. cbn [collect h_field]. unfold span_of. cbn [valueStart]. rewrite slice_tail.
  assert (EV : trim V = V) by now apply trim_fixed.
  rewrite clean_value_verbatim; rewrite EV; try assumption.
  destruct V as [|y V]; [now elim Hne|]. reflexivity.
Qed.

Lemma one_request_one_intent_witness :
  parseFillFromUser (VStr (lit "Set EMAIL to " ++ lit "ved@gmail.com, thanks")) =
  [mkFill (lit "email") (lit "ved@gmail.com, thanks")].
Proof.
  apply (@one_request_one_intent (lit "Set EMAIL to ") (lit "ved@gmail.com, thanks")
           (lit "set") (lit "email") (lit "to")).
  - right. right. now left.
  - right. now left.
  - right. now left.
  - reflexivity.
  - unfold clean. split; [discriminate | split; reflexivity].
  - reflexivity.
  - intros w [<- | [<- | [<- | [<- | []]]]]; vm_compute; reflexivity.
Defined.

(** ** The history window *)





Lemma last_item_cons (T : Type) (x : T) (l : list T) :
  last_item (x :: l) = match last_item l with Some y => Some y | None => Some x end.
Proof.
  destruct l as [|y l]; [reflexivity|]. cbn [last_item].
  destruct l as [|z l]; [reflexivity|].
  assert (K : forall (a : T) l', last_item (a :: l') <> None).
  { intros a l'. revert a. induction l' as [|b l' IH]; intros a; [discriminate|].
    cbn [last_item]. apply IH. }
  destruct (last_item (z :: l)) eqn:E; [reflexivity | now apply K in E].
Qed.

Lemma last_role_of_runs (l : list gturn) :
  forall prev,
    match last_item (first_of_each_run prev l) with
    | Some g => Some (g_role g)
    | None => prev
    end =
    match last_item l with
    | Some g => Some (g_role g)
    | None => prev
    end.
Proof.
  induction l as [|g l IH]; intros prev; [reflexivity|].
  rewrite (last_item_cons g l).
  assert (K : match last_item (g :: first_of_each_run (Some (g_role g)) l) with
              | Some g' => Some (g_role g')
              | None => prev
              end =
              match last_item l with
              | Some y => Some (g_role y)
              | None => Some (g_role g)
              end).
  { rewrite last_item_cons, <- (IH (Some (g_role g))).
    now destruct (last_item (first_of_each_run (Some (g_role g)) l)). }
  cbn [first_of_each_run]. destruct prev as [r|].
  - destruct (grole_eqb r (g_role g)) eqn:R.
    + rewrite IH. destruct (last_item l); [reflexivity|].
      destruct r, (g_role g); cbn in R; congruence.
    + rewrite K. now destruct (last_item l).
  - rewrite K. now destruct (last_item l).
Qed.

Lemma last_item_skipn (T : Type) (n : nat) :
  forall l : list T, skipn n l <> [] -> last_item (skipn n l) = last_item l.
Proof.
  induction n as [|n IH]; intros l H; [reflexivity|].
  destruct l as [|x l]; [reflexivity|]. cbn [skipn] in *.
  rewrite IH by assumption. rewrite (last_item_cons x l).
  destruct (last_item l) eqn:E; [reflexivity|].
  destruct l; [now destruct n | ].
  rewrite last_item_cons in E. now destruct (last_item l).
Qed.

Lemma last_item_map (S T : Type) (f : S -> T) (l : list S) :
  last_item (List.map f l) = option_map f (last_item l).
Proof.
  induction l as [|x l IH]; [reflexivity|].
  cbn [List.map]. rewrite !last_item_cons, IH. now destruct (last_item l).
Qed.

(** X10: a window that is not empty ends with a turn of the same side as the
    last turn of the log: a run of turns at the end of the log is not dropped,
    it is represented by its first turn. *)
Theorem window_ends_like_log (log : list turn) :
  normalizeHistory log <> [] ->
  option_map g_role (last_item (normalizeHistory log)) =
  option_map (fun msg => g_role (to_gemini msg)) (last_item log).
Proof.
  rewrite normalizeHistory_eq. intros Hne.
  set (recent := List.map to_gemini (last_n 6 log)) in *.
  set (kept := skipn (startIndex_of recent) recent) in *.
  pose proof (last_role_of_runs kept None) as R.
  assert (Hk : kept <> []) by (intros E; apply Hne; now rewrite E).
  assert (E1 : last_item kept = last_item recent) by now apply last_item_skipn.
  assert (Hr : last_n 6 log <> []).
  { intros E. apply Hk. unfold kept, recent. now rewrite E. }
  assert (E2 : last_item recent = option_map to_gemini (last_item log)).
  { unfold recent. rewrite last_item_map. f_equal. now apply last_item_skipn. }
  rewrite E1, E2 in R.
  destruct (last_item (first_of_each_run None kept)) as [g|] eqn:Eg.
  - cbn [option_map]. rewrite R. now destruct (last_item log).
  - exfalso. destruct kept as [|x k]; [now apply Hk|].
    cbn [first_of_each_run] in Eg. rewrite last_item_cons in Eg.
    now destruct (last_item (first_of_each_run (Some (g_role x)) k)).
Qed.

Lemma window_ends_like_log_witness :
  option_map g_role
    (last_item (normalizeHistory
       [mkTurn (lit "assistant") (lit "Hi"); mkTurn (lit "user") (lit "fill name as Ved");
        mkTurn (lit "user") (lit "and scroll down")])) =
  option_map (fun msg => g_role (to_gemini msg))
    (last_item [mkTurn (lit "assistant") (lit "Hi"); mkTurn (lit "user") (lit "fill name as Ved");
                mkTurn (lit "user") (lit "and scroll down")]).
Proof.
  apply (@window_ends_like_log
           [mkTurn (lit "assistant") (lit "Hi"); mkTurn (lit "user") (lit "fill name as Ved");
            mkTurn (lit "user") (lit "and scroll down")]).
  vm_compute. discriminate.
Defined.



(** ** The endpoint *)


